(** * Fixed-window rate limiter (Task 3, [rate_limiter.py])

    A shallow embedding of the [RateLimiter] class and the properties of
    its admission check, status queries and resets.

    Conventions of the embedding:
    - [time.time()] is an input of every method that reads the clock; a
      reading is an exact rational number of seconds ([Q]);
    - [self] is passed explicitly, every method returns its result
      together with the limiter it leaves behind;
    - [self.user_requests] is a [defaultdict]: reading a missing key
      stores the factory's value [(0, 0)] under that key;
    - the lock serialises the methods, so a run of the limiter is a
      sequence of whole method calls. *)

From Stdlib Require Import ZArith NArith QArith Qround Lqa Lia Ascii String Sorted.
From stdpp Require Import base gmap strings list fin_maps.

Close Scope Q_scope.
Close Scope Z_scope.

(** ** Data model *)

(** [(window_start_timestamp, request_count)] *)
Abbreviation window := (Q * Z)%type.
Abbreviation store := (gmap string window).

Record RateLimiter := mkRateLimiter {
  max_requests : Z;
  window_size : Q;
  user_requests : store
}.

(** Assignment to [self.user_requests] entries keeps the configuration. *)
Definition with_requests (self : RateLimiter) (d : store) : RateLimiter :=
  {| max_requests := max_requests self;
     window_size := window_size self;
     user_requests := d |}.

Inductive exn := ValueError (msg : string).

(** [lambda: (0, 0)] *)
Definition default_factory : window := (0%Q, 0%Z).

(** [d[k]] on a [defaultdict]: a missing key is filled in and stored. *)
Definition getitem (k : string) (d : store) : window * store :=
  match d !! k with
  | Some v => (v, d)
  | None => (default_factory, <[k := default_factory]> d)
  end.

(** [a >= b] and [a < b] on clock values *)
Definition Qge_bool (a b : Q) : bool := Qle_bool b a.
Definition Qlt_bool (a b : Q) : bool := negb (Qle_bool b a).

(** [round(x, 2)] on exact values: nearest multiple of 1/100, ties to the
    even one. *)
Definition round_half_even (x : Q) : Z :=
  let f := Qfloor x in
  match Qcompare (x - inject_Z f) (1 # 2) with
  | Lt => f
  | Gt => (f + 1)%Z
  | Eq => if Z.even f then f else (f + 1)%Z
  end.

Definition round2 (x : Q) : Q := Qmake (round_half_even (x * 100)) 100.

(** ** Construction *)

Definition default_max_requests : Z := 5.
Definition default_window_size : Q := 60.

Definition __init__ (max_requests : Z) (window_size : Q) : exn + RateLimiter :=
  if (max_requests <=? 0)%Z then
    inl (ValueError "max_requests must be greater than 0")
  else if Qle_bool window_size 0 then
    inl (ValueError "window_size must be greater than 0")
  else
    inr {| max_requests := max_requests;
           window_size := window_size;
           user_requests := ∅ |}.

(** ** Admission check *)

Definition is_allowed (current_time : Q) (user_id : string) (self : RateLimiter)
  : bool * RateLimiter :=
  let '((window_start, request_count), d) := getitem user_id (user_requests self) in
  let time_elapsed := (current_time - window_start)%Q in
  let window_expired := Qge_bool time_elapsed (window_size self) in
  let '(window_start, request_count, d) :=
    if window_expired
    then (current_time, 0%Z, <[user_id := (current_time, 0%Z)]> d)
    else (window_start, request_count, d) in
  if (request_count <? max_requests self)%Z then
    let new_count := (request_count + 1)%Z in
    (true, with_requests self (<[user_id := (window_start, new_count)]> d))
  else
    (false, with_requests self d).

(** ** Status query *)

Module Status.
Record t := mk {
  user_id : string;
  requests_made : Z;
  requests_remaining : Z;
  window_start : Q;
  time_until_reset : Q;
  limit : Z;
  window_size : Q
}.
End Status.

Definition get_status (current_time : Q) (user_id : string) (self : RateLimiter)
  : Status.t * RateLimiter :=
  let '((window_start, request_count), d) := getitem user_id (user_requests self) in
  let time_elapsed := (current_time - window_start)%Q in
  let '(window_start, request_count) :=
    if Qge_bool time_elapsed (window_size self)
    then (current_time, 0%Z)
    else (window_start, request_count) in
  let remaining := (max_requests self - request_count)%Z in
  let time_until_reset := (window_size self - (current_time - window_start))%Q in
  ({| Status.user_id := user_id;
      Status.requests_made := request_count;
      Status.requests_remaining := remaining;
      Status.window_start := window_start;
      Status.time_until_reset := round2 time_until_reset;
      Status.limit := max_requests self;
      Status.window_size := window_size self |},
   with_requests self d).

(** ** Resets *)

Definition reset_user (user_id : string) (self : RateLimiter) : RateLimiter :=
  with_requests self (<[user_id := (0%Q, 0%Z)]> (user_requests self)).

Definition reset_all (self : RateLimiter) : RateLimiter :=
  with_requests self ∅.

(** ** Bulk status *)

Module UserStatus.
Record t := mk {
  requests_made : Z;
  requests_remaining : Z;
  time_until_reset : Q
}.
End UserStatus.

(** The comprehension calls [time.time()] once per entry: [clock k]
    is the reading taken while the entry of [k] is built.  Iterating
    [items()] reads stored entries only, nothing is assigned. *)
Definition get_all_users_status (clock : string → Q) (self : RateLimiter)
  : gmap string UserStatus.t * RateLimiter :=
  (map_imap (λ user_id '(window_start, request_count),
     Some {| UserStatus.requests_made := request_count;
             UserStatus.requests_remaining := (max_requests self - request_count)%Z;
             UserStatus.time_until_reset :=
               round2 (window_size self - (clock user_id - window_start))%Q |})
     (user_requests self),
   self).

(** ** Runs of the limiter

    The lock makes every method call atomic, so a history of a limiter is
    a list of calls, each carrying the clock readings it takes. *)

Inductive call :=
| IsAllowed (current_time : Q) (user_id : string)
| GetStatus (current_time : Q) (user_id : string)
| ResetUser (user_id : string)
| ResetAll
| GetAllUsersStatus (clock : string → Q).

Inductive ret :=
| RBool (b : bool)
| RStatus (s : Status.t)
| RNone
| RAll (m : gmap string UserStatus.t).

Definition step (c : call) (self : RateLimiter) : ret * RateLimiter :=
  match c with
  | IsAllowed now k => let '(b, self') := is_allowed now k self in (RBool b, self')
  | GetStatus now k => let '(s, self') := get_status now k self in (RStatus s, self')
  | ResetUser k => (RNone, reset_user k self)
  | ResetAll => (RNone, reset_all self)
  | GetAllUsersStatus clock =>
      let '(m, self') := get_all_users_status clock self in (RAll m, self')
  end.

(** [run cs self]: the calls of [cs] in order, with the log of every call
    and its result, and the limiter after the last one. *)
Fixpoint run (cs : list call) (self : RateLimiter) : list (call * ret) * RateLimiter :=
  match cs with
  | [] => ([], self)
  | c :: cs =>
      let '(r, self') := step c self in
      let '(log, self'') := run cs self' in
      ((c, r) :: log, self'')
  end.

(** The clock reading of an admission of [k]: an [is_allowed] call on [k]
    that returned [True]. *)
Definition admitted_time (k : string) (e : call * ret) : option Q :=
  match e with
  | (IsAllowed now k', RBool true) => if bool_decide (k' = k) then Some now else None
  | _ => None
  end.

Definition admitted_times (k : string) (log : list (call * ret)) : list Q :=
  omap (admitted_time k) log.

(** [lo <= t < hi] *)
Definition in_window (lo hi t : Q) : bool := Qle_bool lo t && Qlt_bool t hi.

(** The number of readings of [ts] in [[lo, hi)], and the number of
    admissions of [k] at clock readings in [[lo, hi)]. *)
Definition count_in (lo hi : Q) (ts : list Q) : Z :=
  Z.of_nat (length (List.filter (in_window lo hi) ts)).

Definition admissions (k : string) (lo hi : Q) (log : list (call * ret)) : Z :=
  count_in lo hi (admitted_times k log).

(** Calls that discard the window of [k]. *)
Definition resets (k : string) (c : call) : bool :=
  match c with
  | ResetUser k' => bool_decide (k' = k)
  | ResetAll => true
  | _ => false
  end.

(** The clock readings of the [is_allowed] calls, in call order. *)
Fixpoint allow_times (cs : list call) : list Q :=
  match cs with
  | [] => []
  | IsAllowed now _ :: cs => now :: allow_times cs
  | _ :: cs => allow_times cs
  end.

(** A clock that never goes back between readings. *)
Fixpoint nondecreasing (ts : list Q) : bool :=
  match ts with
  | [] => true
  | t :: ts' =>
      match ts' with
      | [] => true
      | t' :: _ => Qle_bool t t' && nondecreasing ts'
      end
  end.

(** A sequence of [is_allowed] calls and the booleans it returns. *)
Fixpoint is_allowed_calls (cs : list (Q * string)) (self : RateLimiter)
  : list bool * RateLimiter :=
  match cs with
  | [] => ([], self)
  | (now, k) :: cs =>
      let '(b, self') := is_allowed now k self in
      let '(bs, self'') := is_allowed_calls cs self' in
      (b :: bs, self'')
  end.

(** The calls of [cs] on key [k], and the results [bs] of those calls. *)
Definition calls_on (k : string) (cs : list (Q * string)) : list (Q * string) :=
  List.filter (λ c, bool_decide (c.2 = k)) cs.

Fixpoint results_on (k : string) (cs : list (Q * string)) (bs : list bool) : list bool :=
  match cs, bs with
  | (_, k') :: cs, b :: bs =>
      if bool_decide (k' = k) then b :: results_on k cs bs else results_on k cs bs
  | _, _ => []
  end.

(** The window [is_allowed] and [get_status] work on: the stored one, or
    the factory's for a key that is not stored. *)
Definition window_of (k : string) (d : store) : window :=
  default default_factory (d !! k).

(** The results of [n] calls that fall into one window holding count [c],
    and the count they leave. *)
Fixpoint window_results (limit c : Z) (n : nat) : list bool * Z :=
  match n with
  | O => ([], c)
  | S n =>
      if (c <? limit)%Z
      then let '(bs, c') := window_results limit (c + 1) n in (true :: bs, c')
      else let '(bs, c') := window_results limit c n in (false :: bs, c')
  end.

(** Two limiters with the same limits and the same entry for [k]. *)
Definition agree_on (k : string) (l1 l2 : RateLimiter) : Prop :=
  max_requests l1 = max_requests l2
  ∧ window_size l1 = window_size l2
  ∧ user_requests l1 !! k = user_requests l2 !! k.

(** The admissions [ts] of a key so far are accounted for by its entry:
    those in the stored window are counted, and none lies beyond it. *)
Definition accounted (size : Q) (ts : list Q) (entry : option window) : Prop :=
  match entry with
  | None => ts = []
  | Some (w, c) =>
      (count_in w (w + size) ts ≤ c)%Z ∧ Forall (λ t, (t < w + size)%Q) ts
  end.

(** Every stored count is within the limit. *)
Definition count_bounded (self : RateLimiter) : Prop :=
  ∀ k w c, user_requests self !! k = Some (w, c) → (0 ≤ c ≤ max_requests self)%Z.

(** The limiter of the examples: [RateLimiter(max_requests=5, window_size=60)]. *)
Definition limiter_5_60 : RateLimiter :=
  {| max_requests := 5; window_size := 60; user_requests := ∅ |}.

(** Two users, as in the second example of the source: five requests
    each, then a sixth one each, all at the clock reading [now]. *)
Definition two_users (now : Q) : list (Q * string) :=
  replicate 5 (now, "alice") ++ replicate 5 (now, "bob")
  ++ [(now, "alice"); (now, "bob")].

(** A run over two windows of ["alice"]. *)
Definition two_windows : list call :=
  [IsAllowed 100 "alice"; IsAllowed 110 "alice"; GetStatus 120 "alice";
   IsAllowed 170 "alice"; GetAllUsersStatus (λ _, 171%Q)].

(** Five admissions, a [reset_user], and one more call, all at the clock
    reading 100. *)
Definition reset_then_retry : list call :=
  [IsAllowed 100 "alice"; IsAllowed 100 "alice"; IsAllowed 100 "alice";
   IsAllowed 100 "alice"; IsAllowed 100 "alice"; ResetUser "alice";
   IsAllowed 100 "alice"].

(** A limiter whose key ["alice"] used up its window opened at 100. *)
Definition alice_at_limit : RateLimiter :=
  {| max_requests := 5; window_size := 60;
     user_requests := {["alice" := (100%Q, 5%Z)]} |}.

(** ** Callers of the limiter in the examples of the source *)

(** [sum(1 for _ in range(n) if limiter.is_allowed(user))] of
    [example_custom_limits]: the number of admitted calls among [n]
    calls, the [i]-th of which reads the clock as the [i]-th element of
    [clock]. *)
Fixpoint count_allowed (clock : list Q) (user : string) (self : RateLimiter)
  : Z * RateLimiter :=
  match clock with
  | [] => (0%Z, self)
  | now :: clock =>
      let '(b, self') := is_allowed now user self in
      let '(n, self'') := count_allowed clock user self' in
      (((if b then 1 else 0) + n)%Z, self'')
  end.

Module Response.
Record t := mk {
  status : string;
  message : string;
  remaining : Z
}.
End Response.

(** [api_endpoint] of [example_basic_usage], a closure over [limiter]:
    [is_allowed] reads the clock at [t_allowed], the [get_status] of the
    success branch at [t_status]. *)
Definition api_endpoint (t_allowed t_status : Q) (user_id action : string)
    (limiter : RateLimiter) : Response.t * RateLimiter :=
  let '(allowed, limiter) := is_allowed t_allowed user_id limiter in
  if allowed then
    let '(st, limiter) := get_status t_status user_id limiter in
    ({| Response.status := "success";
        Response.message := "Processing " +:+ action +:+ " for " +:+ user_id;
        Response.remaining := Status.requests_remaining st |}, limiter)
  else
    ({| Response.status := "error";
        Response.message := "Rate limit exceeded";
        Response.remaining := 0 |}, limiter).

(** ** Vocabulary for runs *)

(** The keys a call leaves in the store, given the keys before it. *)
Definition touched (keys : gset string) (c : call) : gset string :=
  match c with
  | IsAllowed _ k | GetStatus _ k | ResetUser k => {[k]} ∪ keys
  | ResetAll => ∅
  | GetAllUsersStatus _ => keys
  end.

(** Status queries, and the results of the [is_allowed] calls of a log. *)
Definition is_query (c : call) : bool :=
  match c with
  | GetStatus _ _ | GetAllUsersStatus _ => true
  | _ => false
  end.

Definition allowed_result (e : call * ret) : option bool :=
  match e with
  | (IsAllowed _ _, RBool b) => Some b
  | _ => None
  end.

Definition allowed_results (log : list (call * ret)) : list bool :=
  omap allowed_result log.

(** Limiters that [is_allowed] cannot tell apart: the same limits, and
    for every key the same window, stored or default. *)
Definition same_windows (l1 l2 : RateLimiter) : Prop :=
  max_requests l1 = max_requests l2
  ∧ window_size l1 = window_size l2
  ∧ ∀ k, window_of k (user_requests l1) = window_of k (user_requests l2).

(** * Text statistics (Task 1, [smart_text_analyzer.py])

    A Python [str] is modelled as the list of its code points.
    [str.isspace], [string.punctuation], [len] and the order of strings
    are those of the code points.  [str.lower()] follows the case tables
    of Unicode and the context of a character, and
    [round(total_length / word_count, 2)] is a binary floating-point
    computation: they are the parameters [lower] and [float_avg] of the
    model, and nothing below depends on what they return.  The argument
    of [analyze_text] is a [str] by its type, so the [TypeError] branch
    has no counterpart. *)

Abbreviation str := (list N).

Definition between (lo hi c : N) : bool := (lo <=? c)%N && (c <=? hi)%N.

(** [c.isspace()] *)
Definition isspace (c : N) : bool :=
  between 9 13 c || between 28 32 c || (c =? 133)%N || (c =? 160)%N
  || (c =? 5760)%N || between 8192 8202 c || between 8232 8233 c
  || (c =? 8239)%N || (c =? 8287)%N || (c =? 12288)%N.

(** [c in string.punctuation] *)
Definition is_punctuation (c : N) : bool :=
  between 33 47 c || between 58 64 c || between 91 96 c || between 123 126 c.

Fixpoint str_lstrip (s : str) : str :=
  match s with
  | [] => []
  | c :: s' => if isspace c then str_lstrip s' else s
  end.

Definition str_rstrip (s : str) : str := rev (str_lstrip (rev s)).

(** [s.strip()] *)
Definition str_strip (s : str) : str := str_rstrip (str_lstrip s).

(** [s.translate(str.maketrans('', '', string.punctuation))] *)
Definition remove_punctuation (s : str) : str :=
  List.filter (λ c, negb (is_punctuation c)) s.

(** [s.split()]: the maximal runs of characters that are not whitespace;
    [word] holds the characters of the current run, last one first. *)
Fixpoint split_words (word : str) (s : str) : list str :=
  match s with
  | [] => match word with [] => [] | _ => [rev word] end
  | c :: s' =>
      if isspace c
      then match word with
           | [] => split_words [] s'
           | _ => rev word :: split_words [] s'
           end
      else split_words (c :: word) s'
  end.

Definition str_split (s : str) : list str := split_words [] s.

Definition len (s : str) : Z := Z.of_nat (length s).

(** [a < b] on strings: by code points, a proper prefix first. *)
Fixpoint str_lt (a b : str) : bool :=
  match a, b with
  | _, [] => false
  | [], _ :: _ => true
  | x :: a', y :: b' => (x <? y)%N || ((x =? y)%N && str_lt a' b')
  end.

(** [sorted]: a stable sort by the order [lt]. *)
Fixpoint insert_sorted {A} (lt : A → A → bool) (x : A) (l : list A) : list A :=
  match l with
  | [] => [x]
  | y :: l' => if lt y x then y :: insert_sorted lt x l' else x :: l
  end.

Definition sorted {A} (lt : A → A → bool) (l : list A) : list A :=
  foldr (insert_sorted lt) [] l.

(** [Counter(words)]: the count of every word, the words in the order of
    their first occurrence. *)
Fixpoint counter_add (word : str) (counts : list (str * Z)) : list (str * Z) :=
  match counts with
  | [] => [(word, 1%Z)]
  | (w, n) :: counts' =>
      if bool_decide (w = word) then (w, (n + 1)%Z) :: counts'
      else (w, n) :: counter_add word counts'
  end.

Definition Counter (words : list str) : list (str * Z) :=
  foldl (λ counts word, counter_add word counts) [] words.

(** [(-x[1], x[0]) < (-y[1], y[0])] for the items [x], [y] of the counter *)
Definition frequency_lt (x y : str * Z) : bool :=
  (y.2 <? x.2)%Z || ((x.2 =? y.2)%Z && str_lt x.1 y.1).

(** [words]: the text in lower case, without punctuation, split at
    whitespace, empty words filtered out. *)
Definition words (lower : str → str) (text : str) : list str :=
  List.filter (λ word, negb (bool_decide (word = [])))
    (str_split (remove_punctuation (lower text))).

Module Analysis.
Record t := mk {
  word_count : Z;
  average_word_length : Q;
  longest_words : list str;
  word_frequency : list (str * Z)
}.
End Analysis.

Definition analyze_text (lower : str → str) (float_avg : Z → Z → Q) (text : str)
  : exn + Analysis.t :=
  match str_strip text with
  | [] => inl (ValueError "Input string cannot be empty or contain only whitespace")
  | _ =>
      match words lower text with
      | [] => inl (ValueError "No valid words found after removing punctuation")
      | word :: rest =>
          let word_count := Z.of_nat (length (words lower text)) in
          let total_length := foldl Z.add 0%Z (map len (words lower text)) in
          let average_word_length := float_avg total_length word_count in
          let max_length := foldl Z.max (len word) (map len rest) in
          let longest_words :=
            sorted str_lt
              (remove_dups
                 (List.filter (λ w, (len w =? max_length)%Z) (words lower text))) in
          let word_frequency := sorted frequency_lt (Counter (words lower text)) in
          inr {| Analysis.word_count := word_count;
                 Analysis.average_word_length := average_word_length;
                 Analysis.longest_words := longest_words;
                 Analysis.word_frequency := word_frequency |}
      end
  end.

(** The number stored for [w] in a counter, 0 when there is none. *)
Fixpoint get_count (w : str) (counts : list (str * Z)) : Z :=
  match counts with
  | [] => 0%Z
  | (w', n) :: counts' => if bool_decide (w' = w) then n else get_count w counts'
  end.

(** The occurrences of [w] in a list of words. *)
Definition occurrences (w : str) (ws : list str) : Z :=
  Z.of_nat (length (List.filter (λ w', bool_decide (w' = w)) ws)).

(** The code points of a literal, and [str.lower()] on texts of ASCII
    characters, where it maps [A]-[Z] to [a]-[z] and nothing else: the
    instance of [lower] for the examples of the source, which are ASCII. *)
Definition str_of (s : string) : str := map N_of_ascii (list_ascii_of_string s).

Definition lower_ascii (s : str) : str :=
  map (λ c, if between 65 90 c then (c + 32)%N else c) s.

(** The texts of the examples of the source. *)
Definition text1 : str :=
  str_of "The quick brown fox jumps over the lazy dog the fox".

Definition text2 : str :=
  str_of "Hello, world! Hello? How are you... fine, fine.".

(** ** Basic facts *)

Lemma Qge_bool_true a b : Qge_bool a b = true ↔ (b <= a)%Q.
Proof. unfold Qge_bool. apply Qle_bool_iff. Qed.

Lemma Qge_bool_false a b : Qge_bool a b = false ↔ (a < b)%Q.
Proof.
  unfold Qge_bool. rewrite <- not_true_iff_false, Qle_bool_iff.
  split; [apply Qnot_le_lt | apply Qlt_not_le].
Qed.

Lemma Qlt_bool_true a b : Qlt_bool a b = true ↔ (a < b)%Q.
Proof. unfold Qlt_bool. rewrite negb_true_iff. apply Qge_bool_false. Qed.

Lemma with_requests_same self : with_requests self (user_requests self) = self.
Proof. by destruct self. Qed.

Lemma getitem_window_of k d :
  getitem k d = (window_of k d, <[k := window_of k d]> d).
Proof.
  unfold getitem, window_of. destruct (d !! k) as [v|] eqn:E; simpl; [|done].
  by rewrite insert_id.
Qed.

Lemma window_of_stored k d v : d !! k = Some v → window_of k d = v.
Proof. unfold window_of. by intros ->. Qed.

Lemma window_of_missing k d : d !! k = None → window_of k d = (0%Q, 0%Z).
Proof. unfold window_of. by intros ->. Qed.

(** [is_allowed] by cases on the window it finds. *)
Lemma is_allowed_expired now k self w c :
  window_of k (user_requests self) = (w, c) →
  (window_size self <= now - w)%Q →
  is_allowed now k self =
    if (0 <? max_requests self)%Z
    then (true, with_requests self (<[k := (now, 1%Z)]> (user_requests self)))
    else (false, with_requests self (<[k := (now, 0%Z)]> (user_requests self))).
Proof.
  intros Hw He. unfold is_allowed. rewrite getitem_window_of, Hw.
  apply Qge_bool_true in He. rewrite He.
  destruct (0 <? max_requests self)%Z; by rewrite !insert_insert_eq.
Qed.

Lemma is_allowed_within now k self w c :
  window_of k (user_requests self) = (w, c) →
  (now - w < window_size self)%Q →
  is_allowed now k self =
    if (c <? max_requests self)%Z
    then (true, with_requests self (<[k := (w, (c + 1)%Z)]> (user_requests self)))
    else (false, with_requests self (<[k := (w, c)]> (user_requests self))).
Proof.
  intros Hw He. unfold is_allowed. rewrite getitem_window_of, Hw.
  apply Qge_bool_false in He. rewrite He.
  destruct (c <? max_requests self)%Z; by rewrite ?insert_insert_eq.
Qed.

Lemma get_status_store now k self :
  (get_status now k self).2 =
    with_requests self (<[k := window_of k (user_requests self)]> (user_requests self)).
Proof.
  unfold get_status. rewrite getitem_window_of.
  destruct (window_of k (user_requests self)) as [w c].
  by destruct (Qge_bool (now - w) (window_size self)).
Qed.

Lemma get_status_expired now k self w c :
  window_of k (user_requests self) = (w, c) →
  (window_size self <= now - w)%Q →
  (get_status now k self).1 =
    {| Status.user_id := k;
       Status.requests_made := 0;
       Status.requests_remaining := max_requests self - 0;
       Status.window_start := now;
       Status.time_until_reset := round2 (window_size self - (now - now));
       Status.limit := max_requests self;
       Status.window_size := window_size self |}.
Proof.
  intros Hw He. unfold get_status. rewrite getitem_window_of, Hw.
  apply Qge_bool_true in He. by rewrite He.
Qed.

Lemma get_status_within now k self w c :
  window_of k (user_requests self) = (w, c) →
  (now - w < window_size self)%Q →
  (get_status now k self).1 =
    {| Status.user_id := k;
       Status.requests_made := c;
       Status.requests_remaining := max_requests self - c;
       Status.window_start := w;
       Status.time_until_reset := round2 (window_size self - (now - w));
       Status.limit := max_requests self;
       Status.window_size := window_size self |}.
Proof.
  intros Hw He. unfold get_status. rewrite getitem_window_of, Hw.
  apply Qge_bool_false in He. by rewrite He.
Qed.

(** ** The examples of the source, evaluated *)

(** [example_basic_usage]: seven requests of one user in a row. *)
Example basic_usage :
  (is_allowed_calls (replicate 7 (1000%Q, "alice")) limiter_5_60).1
  = [true; true; true; true; true; false; false].
Proof. vm_compute. reflexivity. Qed.

(** [example_error_handling]: the three configurations it tries. *)
Example error_handling :
  __init__ 5 60 = inr limiter_5_60
  ∧ __init__ (-1) 60 = inl (ValueError "max_requests must be greater than 0")
  ∧ __init__ 5 0 = inl (ValueError "window_size must be greater than 0").
Proof. repeat split. Qed.

(** [round(x, 2)]: ties go to the even hundredth. *)
Example round2_ties :
  round2 (12345 # 1000) = (1234 # 100)%Q ∧ round2 (12355 # 1000) = (1236 # 100)%Q.
Proof. split; reflexivity. Qed.

(** ** Status query and expiry *)

(** C1, as the code has it: on an expired window [get_status] resets only
    the values it reports (window start [now], no request made, the whole
    limit remaining).  The store keeps the window that was read: the
    stored entry of the key is unchanged, and a key that was not stored
    gets the default window [(0, 0)], not the fresh one. *)
Theorem get_status_reports_reset_without_storing now k self w c :
  window_of k (user_requests self) = (w, c) →
  (window_size self <= now - w)%Q →
  Status.window_start (get_status now k self).1 = now
  ∧ Status.requests_made (get_status now k self).1 = 0%Z
  ∧ Status.requests_remaining (get_status now k self).1 = max_requests self
  ∧ user_requests (get_status now k self).2 = <[k := (w, c)]> (user_requests self)
  ∧ (user_requests self !! k = Some (w, c) → (get_status now k self).2 = self).
Proof.
  intros Hw He. rewrite (get_status_expired now k self w c Hw He). simpl.
  rewrite get_status_store, Hw. simpl.
  repeat split; [lia|].
  intros Hk. rewrite insert_id by done. apply with_requests_same.
Qed.

Lemma get_status_reports_reset_without_storing_witness :
  window_of "alice" (user_requests alice_at_limit) = (100%Q, 5%Z)
  ∧ (window_size alice_at_limit <= 200 - 100)%Q
  ∧ Status.requests_made (get_status 200 "alice" alice_at_limit).1 = 0%Z
  ∧ (get_status 200 "alice" alice_at_limit).2 = alice_at_limit.
Proof.
  assert (H1 : window_of "alice" (user_requests alice_at_limit) = (100%Q, 5%Z))
    by reflexivity.
  assert (H2 : (window_size alice_at_limit <= 200 - 100)%Q)
    by (vm_compute; discriminate).
  split; [exact H1|]. split; [exact H2|].
  destruct (get_status_reports_reset_without_storing
              200 "alice" alice_at_limit 100 5 H1 H2) as (_ & Hm & _ & _ & Hs).
  split; [exact Hm|]. apply Hs. reflexivity.
Defined.

(** The reset reported by [get_status] is not written back: with the
    window of ["alice"] opened at 100 and read at 200, the report shows
    the fresh window [(200, 0)] while the store still holds [(100, 5)]. *)
Lemma get_status_reset_is_not_stored :
  user_requests alice_at_limit !! "alice" = Some (100%Q, 5%Z)
  ∧ (window_size alice_at_limit <= 200 - 100)%Q
  ∧ Status.window_start (get_status 200 "alice" alice_at_limit).1 = 200%Q
  ∧ Status.requests_made (get_status 200 "alice" alice_at_limit).1 = 0%Z
  ∧ user_requests (get_status 200 "alice" alice_at_limit).2 !! "alice"
      = Some (100%Q, 5%Z)
  ∧ user_requests (get_status 200 "alice" alice_at_limit).2 !! "alice"
      ≠ Some (200%Q, 0%Z).
Proof.
  repeat split; try reflexivity.
  - vm_compute; discriminate.
  - vm_compute; discriminate.
Qed.

(** ** Admission on an expired window *)

(** C3: when the window of a key (the default [(0, 0)] for a key that is
    not stored) has expired at the clock reading of [is_allowed], the call
    returns [True] whatever the old count was, and leaves the window
    [(now, 1)] in the store. *)
Theorem is_allowed_after_expiry now k self w c :
  (0 < max_requests self)%Z →
  window_of k (user_requests self) = (w, c) →
  (window_size self <= now - w)%Q →
  (is_allowed now k self).1 = true
  ∧ (is_allowed now k self).2 =
      with_requests self (<[k := (now, 1%Z)]> (user_requests self))
  ∧ user_requests (is_allowed now k self).2 !! k = Some (now, 1%Z).
Proof.
  intros Hm Hw He. rewrite (is_allowed_expired now k self w c Hw He).
  apply Z.ltb_lt in Hm. rewrite Hm. simpl.
  by rewrite lookup_insert_eq.
Qed.

Lemma is_allowed_after_expiry_witness :
  (0 < max_requests alice_at_limit)%Z
  ∧ window_of "alice" (user_requests alice_at_limit) = (100%Q, 5%Z)
  ∧ (window_size alice_at_limit <= 160 - 100)%Q
  ∧ (is_allowed 160 "alice" alice_at_limit).1 = true.
Proof.
  assert (H0 : (0 < max_requests alice_at_limit)%Z) by (vm_compute; reflexivity).
  assert (H1 : window_of "alice" (user_requests alice_at_limit) = (100%Q, 5%Z))
    by reflexivity.
  assert (H2 : (window_size alice_at_limit <= 160 - 100)%Q)
    by (vm_compute; discriminate).
  split; [exact H0|]. split; [exact H1|]. split; [exact H2|].
  exact (proj1 (is_allowed_after_expiry 160 "alice" alice_at_limit 100 5 H0 H1 H2)).
Defined.

(** ** Denial *)

Lemma is_allowed_missing now k self :
  (0 < max_requests self)%Z →
  user_requests self !! k = None →
  (is_allowed now k self).1 = true ∧ is_Some (user_requests (is_allowed now k self).2 !! k).
Proof.
  intros Hm Hk. apply Z.ltb_lt in Hm.
  pose proof (window_of_missing k _ Hk) as Hw.
  destruct (Qge_bool (now - 0) (window_size self)) eqn:He.
  - apply Qge_bool_true in He.
    rewrite (is_allowed_expired now k self _ _ Hw He), Hm. simpl.
    by rewrite lookup_insert_eq.
  - apply Qge_bool_false in He.
    rewrite (is_allowed_within now k self _ _ Hw He), Hm. simpl.
    by rewrite lookup_insert_eq.
Qed.

(** C6: a denied [is_allowed] call leaves the limiter as it found it; the
    whole store, and so the window start and the count of the key, are
    those of before the call.  ([max_requests] is positive for every
    limiter that was constructed.) *)
Theorem denial_commits_nothing now k self self' :
  (0 < max_requests self)%Z →
  is_allowed now k self = (false, self') →
  self' = self.
Proof.
  intros Hm Hd.
  destruct (user_requests self !! k) as [[w c]|] eqn:Hk.
  - pose proof (window_of_stored k _ _ Hk) as Hw.
    destruct (Qge_bool (now - w) (window_size self)) eqn:He.
    + apply Qge_bool_true in He.
      rewrite (is_allowed_expired now k self w c Hw He) in Hd.
      apply Z.ltb_lt in Hm. rewrite Hm in Hd. discriminate.
    + apply Qge_bool_false in He.
      rewrite (is_allowed_within now k self w c Hw He) in Hd.
      destruct (c <? max_requests self)%Z; [discriminate|].
      inversion Hd. rewrite insert_id by done. apply with_requests_same.
  - destruct (is_allowed_missing now k self Hm Hk) as [Ht _].
    rewrite Hd in Ht. discriminate.
Qed.

Lemma denial_commits_nothing_witness :
  (0 < max_requests alice_at_limit)%Z
  ∧ is_allowed 130 "alice" alice_at_limit = (false, alice_at_limit).
Proof.
  assert (H0 : (0 < max_requests alice_at_limit)%Z) by (vm_compute; reflexivity).
  split; [exact H0|].
  destruct (is_allowed 130 "alice" alice_at_limit) as [b self'] eqn:E.
  assert (Hb : b = false) by (apply (f_equal fst) in E; vm_compute in E; congruence).
  subst b.
  by rewrite (denial_commits_nothing 130 "alice" alice_at_limit self' H0 E).
Defined.

(** ** Resets *)

(** C8: [reset_user] stores the empty window [(0, 0)] for the key whatever
    was stored, doing it twice gives the limiter of doing it once, and
    after [reset_all] the status of any key reports no request made. *)
Theorem resets_are_idempotent now k self :
  user_requests (reset_user k self) = <[k := (0%Q, 0%Z)]> (user_requests self)
  ∧ user_requests (reset_user k self) !! k = Some (0%Q, 0%Z)
  ∧ reset_user k (reset_user k self) = reset_user k self
  ∧ reset_all (reset_all self) = reset_all self
  ∧ user_requests (reset_all self) = ∅
  ∧ Status.requests_made (get_status now k (reset_all self)).1 = 0%Z.
Proof.
  repeat split.
  - unfold reset_user. simpl. apply lookup_insert_eq.
  - unfold reset_user, with_requests. simpl. by rewrite insert_insert_eq.
  - assert (Hw : window_of k (user_requests (reset_all self)) = (0%Q, 0%Z))
      by (apply window_of_missing; apply lookup_empty).
    destruct (Qge_bool (now - 0) (window_size (reset_all self))) eqn:He.
    + apply Qge_bool_true in He. by rewrite (get_status_expired _ _ _ _ _ Hw He).
    + apply Qge_bool_false in He. by rewrite (get_status_within _ _ _ _ _ Hw He).
Qed.

(** ** Lazily created entries *)

Lemma get_all_users_status_lookup clock self k :
  (get_all_users_status clock self).1 !! k =
    match user_requests self !! k with
    | Some (w, c) =>
        Some {| UserStatus.requests_made := c;
                UserStatus.requests_remaining := (max_requests self - c)%Z;
                UserStatus.time_until_reset :=
                  round2 (window_size self - (clock k - w))%Q |}
    | None => None
    end.
Proof.
  unfold get_all_users_status. simpl. rewrite map_lookup_imap.
  by destruct (user_requests self !! k) as [[w c]|].
Qed.

Lemma get_all_users_status_dom clock self :
  dom (get_all_users_status clock self).1 = dom (user_requests self).
Proof.
  apply set_eq. intros k. rewrite !elem_of_dom, get_all_users_status_lookup.
  destruct (user_requests self !! k) as [[w c]|]; split; intros [? ?]; by eauto.
Qed.

(** C10: [get_status] and [reset_user] on a key that is not stored add
    the entry [(0, 0)] for it, so that the key is among those reported by
    [get_all_users_status] although [is_allowed] was never called on it. *)
Theorem status_and_reset_create_entry now clock k self :
  user_requests self !! k = None →
  user_requests (get_status now k self).2 = <[k := (0%Q, 0%Z)]> (user_requests self)
  ∧ user_requests (reset_user k self) = <[k := (0%Q, 0%Z)]> (user_requests self)
  ∧ (k ∉ dom (get_all_users_status clock self).1)
  ∧ k ∈ dom (get_all_users_status clock (get_status now k self).2).1
  ∧ k ∈ dom (get_all_users_status clock (reset_user k self)).1.
Proof.
  intros Hk.
  assert (Hs : user_requests (get_status now k self).2
               = <[k := (0%Q, 0%Z)]> (user_requests self)).
  { rewrite get_status_store. simpl. by rewrite (window_of_missing k _ Hk). }
  split; [exact Hs|]. split; [done|].
  rewrite !get_all_users_status_dom, Hs.
  unfold reset_user. simpl. rewrite !elem_of_dom, Hk, lookup_insert_eq.
  split; [by intros [? ?]|]. split; by eexists.
Qed.

Lemma status_and_reset_create_entry_witness :
  user_requests limiter_5_60 !! "carol" = None
  ∧ "carol" ∈ dom (get_all_users_status (λ _, 1000%Q)
                     (get_status 1000 "carol" limiter_5_60).2).1
  ∧ "carol" ∈ dom (get_all_users_status (λ _, 1000%Q)
                     (reset_user "carol" limiter_5_60)).1.
Proof.
  assert (H0 : user_requests limiter_5_60 !! "carol" = None) by reflexivity.
  split; [exact H0|].
  destruct (status_and_reset_create_entry 1000 (λ _, 1000%Q) "carol" limiter_5_60 H0)
    as (_ & _ & _ & H1 & H2).
  split; [exact H1 | exact H2].
Defined.

(** ** Bulk status *)

(** C7: [get_all_users_status] has an entry for exactly the stored keys;
    each entry is computed from the stored window start and count as they
    are, with no expiry check; the limiter is left untouched.  So for a
    stored window that has expired the bulk report still shows the old
    count, while [get_status] called right after shows a fresh window. *)
Theorem bulk_status_reads_stored_windows clock self :
  (∀ k, (get_all_users_status clock self).1 !! k =
        match user_requests self !! k with
        | Some (w, c) =>
            Some {| UserStatus.requests_made := c;
                    UserStatus.requests_remaining := (max_requests self - c)%Z;
                    UserStatus.time_until_reset :=
                      round2 (window_size self - (clock k - w))%Q |}
        | None => None
        end)
  ∧ dom (get_all_users_status clock self).1 = dom (user_requests self)
  ∧ (get_all_users_status clock self).2 = self
  ∧ (∀ now k w c,
       user_requests self !! k = Some (w, c) →
       (window_size self <= now - w)%Q →
       UserStatus.requests_made <$> (get_all_users_status clock self).1 !! k = Some c
       ∧ Status.requests_made
           (get_status now k (get_all_users_status clock self).2).1 = 0%Z
       ∧ Status.window_start
           (get_status now k (get_all_users_status clock self).2).1 = now).
Proof.
  split; [apply get_all_users_status_lookup|].
  split; [apply get_all_users_status_dom|].
  split; [done|].
  intros now k w c Hk He. rewrite get_all_users_status_lookup, Hk. simpl.
  pose proof (window_of_stored k _ _ Hk) as Hw.
  by rewrite (get_status_expired now k self w c Hw He).
Qed.

Lemma bulk_status_reads_stored_windows_witness :
  user_requests alice_at_limit !! "alice" = Some (100%Q, 5%Z)
  ∧ (window_size alice_at_limit <= 200 - 100)%Q
  ∧ UserStatus.requests_made <$>
      (get_all_users_status (λ _, 200%Q) alice_at_limit).1 !! "alice" = Some 5%Z
  ∧ Status.requests_made
      (get_status 200 "alice"
         (get_all_users_status (λ _, 200%Q) alice_at_limit).2).1 = 0%Z.
Proof.
  assert (H1 : user_requests alice_at_limit !! "alice" = Some (100%Q, 5%Z))
    by reflexivity.
  assert (H2 : (window_size alice_at_limit <= 200 - 100)%Q)
    by (vm_compute; discriminate).
  split; [exact H1|]. split; [exact H2|].
  destruct (bulk_status_reads_stored_windows (λ _, 200%Q) alice_at_limit)
    as (_ & _ & _ & H).
  destruct (H 200%Q "alice" 100%Q 5%Z H1 H2) as (Ha & Hb & _).
  split; [exact Ha | exact Hb].
Defined.

(** ** Construction *)

(** C5: [__init__] raises exactly when [max_requests <= 0] or
    [window_size <= 0], and then yields no limiter; otherwise it yields
    the limiter with the given limits and an empty store.  Every other
    method returns for every limiter and every key: a key that is not
    stored (the empty string as any other) is admitted by [is_allowed]
    and stored, and [get_status] reports an unused window for it. *)
Theorem init_raises_iff_invalid mr ws :
  ((mr ≤ 0)%Z ∨ (ws <= 0)%Q ↔ ∃ msg, __init__ mr ws = inl (ValueError msg))
  ∧ (¬ ((mr ≤ 0)%Z ∨ (ws <= 0)%Q) ↔
       __init__ mr ws =
         inr {| max_requests := mr; window_size := ws; user_requests := ∅ |})
  ∧ ((∃ e, __init__ mr ws = inl e) → ∀ self, __init__ mr ws ≠ inr self)
  ∧ (∀ c self, ∃ r self', step c self = (r, self'))
  ∧ (∀ now k self,
       (0 < max_requests self)%Z →
       user_requests self !! k = None →
       (is_allowed now k self).1 = true
       ∧ is_Some (user_requests (is_allowed now k self).2 !! k)
       ∧ Status.requests_made (get_status now k self).1 = 0%Z
       ∧ Status.requests_remaining (get_status now k self).1 = max_requests self).
Proof.
  assert (Hkeys : ∀ now k self,
       (0 < max_requests self)%Z →
       user_requests self !! k = None →
       (is_allowed now k self).1 = true
       ∧ is_Some (user_requests (is_allowed now k self).2 !! k)
       ∧ Status.requests_made (get_status now k self).1 = 0%Z
       ∧ Status.requests_remaining (get_status now k self).1 = max_requests self).
  { intros now k self Hm Hk.
    destruct (is_allowed_missing now k self Hm Hk) as [Ha Hb].
    split; [exact Ha|]. split; [exact Hb|].
    pose proof (window_of_missing k _ Hk) as Hwo.
    destruct (Qge_bool (now - 0) (window_size self)) eqn:He.
    + apply Qge_bool_true in He. rewrite (get_status_expired _ _ _ _ _ Hwo He).
      simpl. split; lia.
    + apply Qge_bool_false in He. rewrite (get_status_within _ _ _ _ _ Hwo He).
      simpl. split; lia. }
  assert (Hinit : __init__ mr ws =
            if (mr <=? 0)%Z then inl (ValueError "max_requests must be greater than 0")
            else if Qle_bool ws 0
                 then inl (ValueError "window_size must be greater than 0")
                 else inr {| max_requests := mr; window_size := ws;
                             user_requests := ∅ |}) by reflexivity.
  destruct (mr <=? 0)%Z eqn:Em; [apply Z.leb_le in Em | apply Z.leb_gt in Em].
  { split; [|split; [|split; [|split]]].
    - split; [by eauto | by left].
    - split; [intros H; exfalso; apply H; by left | congruence].
    - congruence.
    - intros c self. destruct (step c self) as [r self']; by eauto.
    - exact Hkeys. }
  destruct (Qle_bool ws 0) eqn:Ew.
  { apply Qle_bool_iff in Ew.
    split; [|split; [|split; [|split]]].
    - split; [by eauto | by right].
    - split; [intros H; exfalso; apply H; by right | congruence].
    - congruence.
    - intros c self. destruct (step c self) as [r self']; by eauto.
    - exact Hkeys. }
  assert (Hw : ¬ (ws <= 0)%Q) by (rewrite <- Qle_bool_iff; congruence).
  split; [|split; [|split; [|split]]].
  - split; [intros [?|?]; [lia | done] | intros [? ?]; congruence].
  - split; [done | intros _ [?|?]; [lia | done]].
  - intros [? ?]; congruence.
  - intros c self. destruct (step c self) as [r self']; by eauto.
  - exact Hkeys.
Qed.

Lemma init_raises_iff_invalid_witness :
  (∃ msg, __init__ (-1) 60 = inl (ValueError msg))
  ∧ __init__ 5 60 = inr limiter_5_60
  ∧ (is_allowed 1000 "" limiter_5_60).1 = true.
Proof.
  destruct (init_raises_iff_invalid (-1) 60) as ((Hr & _) & _).
  split; [apply Hr; left; lia|].
  destruct (init_raises_iff_invalid 5 60) as (_ & (Hok & _) & _ & _ & Hk).
  assert (H5 : __init__ 5 60 = inr limiter_5_60).
  { apply Hok. intros [H|H]; [lia | vm_compute in H; by apply H]. }
  split; [exact H5|].
  exact (proj1 (Hk 1000%Q "" limiter_5_60 ltac:(vm_compute; reflexivity) eq_refl)).
Defined.

(** ** Calls within one window *)

Lemma is_allowed_config now k self :
  max_requests (is_allowed now k self).2 = max_requests self
  ∧ window_size (is_allowed now k self).2 = window_size self.
Proof.
  unfold is_allowed. rewrite getitem_window_of.
  destruct (window_of k (user_requests self)) as [w c].
  destruct (Qge_bool (now - w) (window_size self));
    by destruct (_ <? _)%Z.
Qed.

Lemma is_allowed_calls_cons now k cs self :
  is_allowed_calls ((now, k) :: cs) self =
    ((is_allowed now k self).1 :: (is_allowed_calls cs (is_allowed now k self).2).1,
     (is_allowed_calls cs (is_allowed now k self).2).2).
Proof.
  simpl. destruct (is_allowed now k self) as [b self']. simpl.
  by destruct (is_allowed_calls cs self') as [bs self''].
Qed.

(** Calls on [k] at readings inside its stored window [(w, c)]: admitted
    while the count is below the limit, denied after that; the window
    start stays. *)
Lemma calls_within_window k ts : ∀ self w c,
  user_requests self !! k = Some (w, c) →
  Forall (λ t, (t - w < window_size self)%Q) ts →
  (is_allowed_calls (map (λ t, (t, k)) ts) self).1
    = (window_results (max_requests self) c (length ts)).1
  ∧ user_requests (is_allowed_calls (map (λ t, (t, k)) ts) self).2 !! k
    = Some (w, (window_results (max_requests self) c (length ts)).2)
  ∧ max_requests (is_allowed_calls (map (λ t, (t, k)) ts) self).2 = max_requests self
  ∧ window_size (is_allowed_calls (map (λ t, (t, k)) ts) self).2 = window_size self.
Proof.
  induction ts as [|t ts IH]; intros self w c Hk Hts; [done|].
  apply Forall_cons in Hts as [Ht Hts].
  cbn [map length]. rewrite is_allowed_calls_cons. cbn [fst snd window_results].
  pose proof (window_of_stored k _ _ Hk) as Hw.
  pose proof (is_allowed_within t k self w c Hw Ht) as Hstep.
  destruct (is_allowed_config t k self) as [Hm Hs].
  destruct (c <? max_requests self)%Z eqn:Ec.
  - destruct (IH (is_allowed t k self).2 w (c + 1)%Z) as (H1 & H2 & H3 & H4).
    { rewrite Hstep. simpl. apply lookup_insert_eq. }
    { by rewrite Hs. }
    rewrite Hm in H1, H2.
    destruct (window_results (max_requests self) (c + 1) (length ts)) as [bs c'].
    simpl in *. rewrite H1, H2, H3, H4, Hm, Hs, Hstep. done.
  - destruct (IH (is_allowed t k self).2 w c) as (H1 & H2 & H3 & H4).
    { rewrite Hstep. simpl. apply lookup_insert_eq. }
    { by rewrite Hs. }
    rewrite Hm in H1, H2.
    destruct (window_results (max_requests self) c (length ts)) as [bs c'].
    simpl in *. rewrite H1, H2, H3, H4, Hm, Hs, Hstep. done.
Qed.

Lemma first_call_opens_window now k self :
  (0 < max_requests self)%Z →
  user_requests self !! k = None →
  (window_size self <= now)%Q →
  (is_allowed now k self).1 = true
  ∧ user_requests (is_allowed now k self).2 !! k = Some (now, 1%Z).
Proof.
  intros Hm Hk He. pose proof (window_of_missing k _ Hk) as Hw.
  assert (He' : (window_size self <= now - 0)%Q) by lra.
  rewrite (is_allowed_expired now k self _ _ Hw He').
  apply Z.ltb_lt in Hm. rewrite Hm. simpl. by rewrite lookup_insert_eq.
Qed.

(** ** The seven-call scenario *)

(** C4: with [max_requests = 5], [window_size = 60] and a key that is not
    stored, seven [is_allowed] calls on the key that all occur within 60
    seconds of the first return five times [True] and then twice
    [False], and [get_status] after the fifth call, read within the same
    60 seconds, reports no request remaining.  The clock reads seconds
    since the epoch, so the reading [t1] of the first call is at least
    the window size 60, and that call finds the default window [(0, 0)]
    expired. *)
Theorem seven_calls_in_first_window k self t1 t2 t3 t4 t5 t6 t7 ts :
  max_requests self = 5%Z →
  (window_size self == 60)%Q →
  user_requests self !! k = None →
  (60 <= t1)%Q →
  Forall (λ t, (t - t1 < 60)%Q) [t2; t3; t4; t5; t6; t7; ts] →
  (is_allowed_calls
     [(t1, k); (t2, k); (t3, k); (t4, k); (t5, k); (t6, k); (t7, k)] self).1
    = [true; true; true; true; true; false; false]
  ∧ Status.requests_remaining
      (get_status ts k
         (is_allowed_calls [(t1, k); (t2, k); (t3, k); (t4, k); (t5, k)] self).2).1
    = 0%Z.
Proof.
  intros Hm Hs Hk H1 Hts.
  assert (Hin : ∀ t, (t - t1 < 60)%Q →
                     (t - t1 < window_size (is_allowed t1 k self).2)%Q).
  { intros t Ht. rewrite (proj2 (is_allowed_config t1 k self)). lra. }
  destruct (first_call_opens_window t1 k self) as [Hb Hl]; [lia | done | lra |].
  pose proof (proj1 (is_allowed_config t1 k self)) as Hm1. rewrite Hm in Hm1.
  repeat match goal with
         | H : Forall _ (_ :: _) |- _ => apply Forall_cons in H as [? H]
         end.
  split.
  - rewrite is_allowed_calls_cons. cbn [fst snd]. rewrite Hb. f_equal.
    destruct (calls_within_window k [t2; t3; t4; t5; t6; t7]
                (is_allowed t1 k self).2 t1 1%Z Hl) as (Hr & _).
    { repeat constructor; by apply Hin. }
    change (map (λ t, (t, k)) [t2; t3; t4; t5; t6; t7])
      with [(t2, k); (t3, k); (t4, k); (t5, k); (t6, k); (t7, k)] in Hr.
    rewrite Hr, Hm1. reflexivity.
  - rewrite is_allowed_calls_cons. cbn [fst snd].
    destruct (calls_within_window k [t2; t3; t4; t5]
                (is_allowed t1 k self).2 t1 1%Z Hl) as (_ & Hst & Hm5 & Hs5).
    { repeat constructor; by apply Hin. }
    change (map (λ t, (t, k)) [t2; t3; t4; t5])
      with [(t2, k); (t3, k); (t4, k); (t5, k)] in Hst, Hm5, Hs5.
    rewrite Hm1 in Hst, Hm5.
    change (window_results 5 1 (length [t2; t3; t4; t5])).2 with 5%Z in Hst.
    pose proof (window_of_stored k _ _ Hst) as Hw.
    rewrite (get_status_within ts k _ t1 5%Z Hw).
    + cbn [Status.requests_remaining]. rewrite Hm5. reflexivity.
    + rewrite Hs5. by apply Hin.
Qed.

Lemma seven_calls_in_first_window_witness :
  max_requests limiter_5_60 = 5%Z
  ∧ (window_size limiter_5_60 == 60)%Q
  ∧ user_requests limiter_5_60 !! "alice" = None
  ∧ (60 <= 1000)%Q
  ∧ Forall (λ t, (t - 1000 < 60)%Q) [1000; 1001; 1002; 1010; 1059; 1059; 1030]%Q
  ∧ (is_allowed_calls
       [(1000, "alice"); (1000, "alice"); (1001, "alice"); (1002, "alice");
        (1010, "alice"); (1059, "alice"); (1059, "alice")]%Q limiter_5_60).1
    = [true; true; true; true; true; false; false].
Proof.
  assert (H1 : max_requests limiter_5_60 = 5%Z) by reflexivity.
  assert (H2 : (window_size limiter_5_60 == 60)%Q) by reflexivity.
  assert (H3 : user_requests limiter_5_60 !! "alice" = None) by reflexivity.
  assert (H4 : (60 <= 1000)%Q) by (vm_compute; discriminate).
  assert (H5 : Forall (λ t, (t - 1000 < 60)%Q)
                 [1000; 1001; 1002; 1010; 1059; 1059; 1030]%Q)
    by (repeat constructor; vm_compute; reflexivity).
  split; [exact H1|]. split; [exact H2|]. split; [exact H3|].
  split; [exact H4|]. split; [exact H5|].
  exact (proj1 (seven_calls_in_first_window "alice" limiter_5_60
                  1000 1000 1001 1002 1010 1059 1059 1030 H1 H2 H3 H4 H5)).
Defined.

(** ** Independence of keys *)

Lemma is_allowed_frame now A B self :
  A ≠ B →
  user_requests (is_allowed now A self).2 !! B = user_requests self !! B.
Proof.
  intros Hne. unfold is_allowed. rewrite getitem_window_of.
  destruct (window_of A (user_requests self)) as [w c].
  destruct (Qge_bool (now - w) (window_size self));
    destruct (_ <? _)%Z; simpl; by rewrite ?lookup_insert_ne.
Qed.

Lemma agree_on_window_of k l1 l2 :
  agree_on k l1 l2 → window_of k (user_requests l1) = window_of k (user_requests l2).
Proof. intros (_ & _ & H). unfold window_of. by rewrite H. Qed.

Lemma is_allowed_agree now k l1 l2 :
  agree_on k l1 l2 →
  (is_allowed now k l1).1 = (is_allowed now k l2).1
  ∧ agree_on k (is_allowed now k l1).2 (is_allowed now k l2).2.
Proof.
  intros Ha. pose proof (agree_on_window_of k l1 l2 Ha) as Hw.
  destruct Ha as (Hm & Hs & _).
  destruct (window_of k (user_requests l2)) as [w c] eqn:Hw2.
  unfold agree_on.
  destruct (Qge_bool (now - w) (window_size l1)) eqn:He.
  - apply Qge_bool_true in He.
    rewrite (is_allowed_expired now k l1 w c Hw He).
    rewrite Hs in He. rewrite (is_allowed_expired now k l2 w c Hw2 He).
    rewrite Hm. destruct (0 <? max_requests l2)%Z; simpl;
      by rewrite !lookup_insert_eq.
  - apply Qge_bool_false in He.
    rewrite (is_allowed_within now k l1 w c Hw He).
    rewrite Hs in He. rewrite (is_allowed_within now k l2 w c Hw2 He).
    rewrite Hm. destruct (c <? max_requests l2)%Z; simpl;
      by rewrite !lookup_insert_eq.
Qed.

Lemma is_allowed_other_agree now A B l1 l2 :
  A ≠ B → agree_on B l1 l2 → agree_on B (is_allowed now A l1).2 l2.
Proof.
  intros Hne (Hm & Hs & Hk). destruct (is_allowed_config now A l1) as [Hm' Hs'].
  unfold agree_on. by rewrite Hm', Hs', is_allowed_frame.
Qed.

(** The results of the calls on [B] within a sequence of calls, and the
    entry of [B] they leave, are those of the calls on [B] alone. *)
Lemma calls_on_independent B cs : ∀ l1 l2,
  agree_on B l1 l2 →
  results_on B cs (is_allowed_calls cs l1).1 = (is_allowed_calls (calls_on B cs) l2).1
  ∧ agree_on B (is_allowed_calls cs l1).2 (is_allowed_calls (calls_on B cs) l2).2.
Proof.
  induction cs as [|[now A] cs IH]; intros l1 l2 Ha; [done|].
  rewrite is_allowed_calls_cons. unfold calls_on. cbn [List.filter snd fst results_on].
  fold (calls_on B cs). case_bool_decide as HA.
  - subst A. rewrite is_allowed_calls_cons. cbn [fst snd].
    destruct (is_allowed_agree now B l1 l2 Ha) as [Hb Ha'].
    destruct (IH _ _ Ha') as [Hr Hf]. by rewrite Hb, Hr.
  - apply IH. by apply is_allowed_other_agree.
Qed.

Lemma fresh_key_calls now k self n :
  (0 < max_requests self)%Z →
  (0 < window_size self)%Q →
  user_requests self !! k = None →
  (is_allowed_calls (map (λ t, (t, k)) (replicate (S n) now)) self).1
    = (window_results (max_requests self) 0 (S n)).1.
Proof.
  intros Hm Hs Hk. pose proof (window_of_missing k _ Hk) as Hw.
  cbn [replicate map]. rewrite is_allowed_calls_cons.
  cbn [fst snd window_results].
  destruct (is_allowed_config now k self) as [Hm' Hs'].
  pose proof Hm as Hlt. apply Z.ltb_lt in Hlt. rewrite Hlt.
  assert (Hcalls : ∀ w, (now - w < window_size self)%Q →
            (is_allowed now k self).1 = true →
            user_requests (is_allowed now k self).2 !! k = Some (w, 1%Z) →
            (is_allowed now k self).1
              :: (is_allowed_calls (map (λ t, (t, k)) (replicate n now))
                    (is_allowed now k self).2).1
            = (let '(bs, c') := window_results (max_requests self) (0 + 1) n
               in (true :: bs, c')).1).
  { intros w Hin Hb Hst.
    destruct (calls_within_window k (replicate n now) _ w 1%Z Hst) as (Hr & _).
    { apply Forall_replicate. by rewrite Hs'. }
    rewrite Hr, Hb, Hm', length_replicate. change (0 + 1)%Z with 1%Z.
    by destruct (window_results (max_requests self) 1 n). }
  destruct (Qge_bool (now - 0) (window_size self)) eqn:He.
  - apply Qge_bool_true in He.
    pose proof (is_allowed_expired now k self _ _ Hw He) as Hstep.
    rewrite Hlt in Hstep.
    apply (Hcalls now); [lra | by rewrite Hstep |].
    rewrite Hstep. simpl. apply lookup_insert_eq.
  - apply Qge_bool_false in He.
    pose proof (is_allowed_within now k self _ _ Hw He) as Hstep.
    rewrite Hlt in Hstep.
    apply (Hcalls 0%Q); [done | by rewrite Hstep |].
    rewrite Hstep. simpl. apply lookup_insert_eq.
Qed.

(** C9: an [is_allowed] call on a key [A] leaves the stored window of
    every other key [B] as it was; within any sequence of [is_allowed]
    calls the results of the calls on [B], and the window of [B] at the
    end, are those of the calls on [B] alone.  With a limit of 5, two
    users get five times [True] and then [False] each. *)
Theorem keys_are_independent :
  (∀ now A B self, A ≠ B →
     user_requests (is_allowed now A self).2 !! B = user_requests self !! B)
  ∧ (∀ cs B self,
       results_on B cs (is_allowed_calls cs self).1
         = (is_allowed_calls (calls_on B cs) self).1
       ∧ user_requests (is_allowed_calls cs self).2 !! B
         = user_requests (is_allowed_calls (calls_on B cs) self).2 !! B)
  ∧ (∀ now,
       results_on "alice" (two_users now)
         (is_allowed_calls (two_users now) limiter_5_60).1
         = [true; true; true; true; true; false]
       ∧ results_on "bob" (two_users now)
           (is_allowed_calls (two_users now) limiter_5_60).1
         = [true; true; true; true; true; false]).
Proof.
  split; [apply is_allowed_frame|].
  assert (Hind : ∀ cs B self,
       results_on B cs (is_allowed_calls cs self).1
         = (is_allowed_calls (calls_on B cs) self).1
       ∧ user_requests (is_allowed_calls cs self).2 !! B
         = user_requests (is_allowed_calls (calls_on B cs) self).2 !! B).
  { intros cs B self.
    destruct (calls_on_independent B cs self self) as (Hr & _ & _ & Hk); done. }
  split; [exact Hind|].
  intros now.
  assert (Hfresh : ∀ k, (is_allowed_calls (map (λ t, (t, k)) (replicate 6 now))
                           limiter_5_60).1
                        = [true; true; true; true; true; false]).
  { intros k. rewrite fresh_key_calls; [reflexivity | done | done | done]. }
  split.
  - rewrite (proj1 (Hind _ _ _)). apply (Hfresh "alice").
  - rewrite (proj1 (Hind _ _ _)). apply (Hfresh "bob").
Qed.

Lemma keys_are_independent_witness :
  "alice" ≠ "bob"
  ∧ user_requests (is_allowed 1000 "alice" alice_at_limit).2 !! "bob"
    = user_requests alice_at_limit !! "bob".
Proof.
  assert (H : "alice" ≠ "bob") by discriminate.
  split; [exact H|].
  exact (proj1 keys_are_independent 1000%Q "alice" "bob" alice_at_limit H).
Defined.

(** ** Runs: configuration and stored counts *)

Lemma step_is_allowed now k self :
  step (IsAllowed now k) self
    = (RBool (is_allowed now k self).1, (is_allowed now k self).2).
Proof. simpl. by destruct (is_allowed now k self). Qed.

Lemma step_get_status now k self :
  step (GetStatus now k) self
    = (RStatus (get_status now k self).1, (get_status now k self).2).
Proof. simpl. by destruct (get_status now k self). Qed.

Lemma step_config c self :
  max_requests (step c self).2 = max_requests self
  ∧ window_size (step c self).2 = window_size self.
Proof.
  destruct c as [now k|now k|k| |clock].
  - rewrite step_is_allowed. apply is_allowed_config.
  - rewrite step_get_status, get_status_store. done.
  - done.
  - done.
  - done.
Qed.

Lemma run_cons c cs self :
  run (c :: cs) self
    = ((c, (step c self).1) :: (run cs (step c self).2).1,
       (run cs (step c self).2).2).
Proof.
  simpl. destruct (step c self) as [r self']. simpl.
  by destruct (run cs self') as [log self''].
Qed.

Lemma run_app cs1 : ∀ cs2 self,
  run (cs1 ++ cs2) self
    = ((run cs1 self).1 ++ (run cs2 (run cs1 self).2).1,
       (run cs2 (run cs1 self).2).2).
Proof.
  induction cs1 as [|c cs1 IH]; intros cs2 self.
  - simpl. by destruct (run cs2 self).
  - rewrite <- app_comm_cons, !run_cons, IH. done.
Qed.

Lemma run_config cs : ∀ self,
  max_requests (run cs self).2 = max_requests self
  ∧ window_size (run cs self).2 = window_size self.
Proof.
  induction cs as [|c cs IH]; intros self; [done|].
  rewrite run_cons. cbn [snd].
  destruct (IH (step c self).2) as [-> ->]. apply step_config.
Qed.

Lemma window_of_bounded k self w c :
  (0 ≤ max_requests self)%Z →
  count_bounded self →
  window_of k (user_requests self) = (w, c) →
  (0 ≤ c ≤ max_requests self)%Z.
Proof.
  intros Hm Hb Hw. unfold window_of in Hw.
  destruct (user_requests self !! k) as [[w' c']|] eqn:Hk; simpl in Hw.
  - inversion Hw; subst. by apply (Hb k w c).
  - inversion Hw; subst. lia.
Qed.

Lemma insert_bounded k w c self :
  count_bounded self →
  (0 ≤ c ≤ max_requests self)%Z →
  count_bounded (with_requests self (<[k := (w, c)]> (user_requests self))).
Proof.
  intros Hb Hc k' w' c'. simpl. rewrite lookup_insert.
  case_decide.
  - intros [= <- <-]. done.
  - apply Hb.
Qed.

Lemma step_count_bounded c self :
  (0 ≤ max_requests self)%Z →
  count_bounded self →
  count_bounded (step c self).2.
Proof.
  intros Hm Hb. destruct c as [now k|now k|k| |clock].
  - rewrite step_is_allowed. cbn [snd].
    destruct (window_of k (user_requests self)) as [w c] eqn:Hw.
    pose proof (window_of_bounded k self w c Hm Hb Hw) as Hc.
    destruct (Qge_bool (now - w) (window_size self)) eqn:He.
    + apply Qge_bool_true in He. rewrite (is_allowed_expired now k self w c Hw He).
      destruct (0 <? max_requests self)%Z eqn:E; cbn [snd];
        apply insert_bounded; try done; lia.
    + apply Qge_bool_false in He. rewrite (is_allowed_within now k self w c Hw He).
      destruct (c <? max_requests self)%Z eqn:E; cbn [snd];
        apply insert_bounded; try done; lia.
  - rewrite step_get_status, get_status_store. cbn [snd].
    destruct (window_of k (user_requests self)) as [w c] eqn:Hw.
    apply insert_bounded; [done|]. by apply (window_of_bounded k self w c).
  - apply insert_bounded; [done | lia].
  - intros k w c. simpl. by rewrite lookup_empty.
  - done.
Qed.

Lemma run_count_bounded cs : ∀ self,
  (0 ≤ max_requests self)%Z →
  count_bounded self →
  count_bounded (run cs self).2.
Proof.
  induction cs as [|c cs IH]; intros self Hm Hb; [done|].
  rewrite run_cons. cbn [snd]. apply IH.
  - by rewrite (proj1 (step_config c self)).
  - by apply step_count_bounded.
Qed.

Lemma init_inv mr ws self :
  __init__ mr ws = inr self →
  max_requests self = mr ∧ window_size self = ws ∧ user_requests self = ∅
  ∧ (0 < mr)%Z ∧ (0 < ws)%Q.
Proof.
  unfold __init__.
  destruct (mr <=? 0)%Z eqn:Em; [done|].
  destruct (Qle_bool ws 0) eqn:Ew; [done|].
  intros [= <-]. apply Z.leb_gt in Em.
  repeat split; [lia|]. apply Qnot_le_lt. by rewrite <- Qle_bool_iff, Ew.
Qed.

(** ** Runs: admissions within a window *)

Lemma in_window_true lo hi t :
  in_window lo hi t = true ↔ (lo <= t)%Q ∧ (t < hi)%Q.
Proof.
  unfold in_window. rewrite andb_true_iff, Qle_bool_iff, Qlt_bool_true. done.
Qed.

Lemma count_in_app lo hi ts1 ts2 :
  count_in lo hi (ts1 ++ ts2) = (count_in lo hi ts1 + count_in lo hi ts2)%Z.
Proof. unfold count_in. rewrite List.filter_app, length_app. lia. Qed.

Lemma count_in_cons lo hi t ts :
  count_in lo hi (t :: ts) = (count_in lo hi [t] + count_in lo hi ts)%Z.
Proof. apply (count_in_app lo hi [t] ts). Qed.

Lemma count_in_one lo hi t : (0 ≤ count_in lo hi [t] ≤ 1)%Z.
Proof. unfold count_in. simpl. destruct (in_window lo hi t); simpl; lia. Qed.

Lemma count_in_outside lo hi ts :
  Forall (λ t, (t < lo)%Q ∨ (hi <= t)%Q) ts → count_in lo hi ts = 0%Z.
Proof.
  induction 1 as [|t ts Ht _ IH]; [done|].
  rewrite count_in_cons, IH. unfold count_in. simpl.
  destruct (in_window lo hi t) eqn:E; [|done].
  apply in_window_true in E. lra.
Qed.

Lemma admitted_times_cons k e log :
  admitted_times k (e :: log) = admitted_times k [e] ++ admitted_times k log.
Proof. unfold admitted_times. simpl. by destruct (admitted_time k e). Qed.

Lemma admitted_times_app k log1 log2 :
  admitted_times k (log1 ++ log2) = admitted_times k log1 ++ admitted_times k log2.
Proof. apply omap_app. Qed.

Lemma admitted_times_allowed now k b :
  admitted_times k [(IsAllowed now k, RBool b)] = if b then [now] else [].
Proof.
  unfold admitted_times. simpl. destruct b; [|done]. by rewrite bool_decide_eq_true_2.
Qed.

Lemma admitted_times_other now k k' b :
  k' ≠ k → admitted_times k [(IsAllowed now k', RBool b)] = [].
Proof.
  intros Hne. unfold admitted_times. simpl. destruct b; [|done].
  by rewrite bool_decide_eq_false_2.
Qed.

Lemma accounted_window_of size ts k (d : store) :
  (0 < size)%Q → accounted size ts (d !! k) → accounted size ts (Some (window_of k d)).
Proof.
  intros Hs. unfold window_of. destruct (d !! k) as [[w c]|]; [done|].
  intros ->. simpl. done.
Qed.

(** One call keeps the admissions of [k] accounted for, unless it is a
    reset of [k]. *)
Lemma step_accounted k c self ts :
  (0 < max_requests self)%Z →
  (0 < window_size self)%Q →
  resets k c = false →
  accounted (window_size self) ts (user_requests self !! k) →
  accounted (window_size self)
    (ts ++ admitted_times k [(c, (step c self).1)])
    (user_requests (step c self).2 !! k).
Proof.
  intros Hm Hs Hr Hacc. destruct c as [now k'|now k'|k'| |clock].
  - rewrite step_is_allowed. cbn [fst snd].
    destruct (decide (k' = k)) as [->|Hne].
    2:{ rewrite admitted_times_other, app_nil_r, is_allowed_frame; done. }
    apply (accounted_window_of _ _ _ _ Hs) in Hacc.
    destruct (window_of k (user_requests self)) as [w n] eqn:Hw.
    destruct Hacc as [Hcount Hbelow].
    apply Z.ltb_lt in Hm.
    destruct (Qge_bool (now - w) (window_size self)) eqn:He.
    + apply Qge_bool_true in He.
      rewrite (is_allowed_expired now k self w n Hw He), Hm. cbn [fst snd].
      rewrite admitted_times_allowed. cbn [user_requests with_requests].
      rewrite lookup_insert_eq. split.
      * rewrite count_in_app, count_in_outside.
        { pose proof (count_in_one now (now + window_size self) now). lia. }
        eapply Forall_impl; [exact Hbelow|]. intros t Ht. simpl in Ht. left. lra.
      * apply Forall_app. split.
        { eapply Forall_impl; [exact Hbelow|]. intros t Ht. simpl in Ht. lra. }
        { repeat constructor. lra. }
    + apply Qge_bool_false in He.
      rewrite (is_allowed_within now k self w n Hw He).
      destruct (n <? max_requests self)%Z; cbn [fst snd];
        rewrite admitted_times_allowed; cbn [user_requests with_requests];
        rewrite lookup_insert_eq.
      * split.
        { rewrite count_in_app.
          pose proof (count_in_one w (w + window_size self) now). lia. }
        { apply Forall_app. split; [done|]. repeat constructor. lra. }
      * by rewrite app_nil_r.
  - rewrite step_get_status, get_status_store. cbn [fst snd].
    unfold admitted_times. cbn [omap admitted_time]. rewrite app_nil_r.
    cbn [user_requests with_requests]. rewrite lookup_insert. case_decide.
    + subst k'. by apply accounted_window_of.
    + done.
  - simpl in Hr. apply bool_decide_eq_false in Hr.
    cbn [step fst snd]. unfold admitted_times. cbn [omap admitted_time].
    rewrite app_nil_r. unfold reset_user. cbn [user_requests with_requests].
    by rewrite lookup_insert_ne.
  - discriminate.
  - cbn [step get_all_users_status fst snd]. unfold admitted_times.
    cbn [omap admitted_time]. by rewrite app_nil_r.
Qed.

Lemma run_accounted k cs : ∀ self ts,
  (0 < max_requests self)%Z →
  (0 < window_size self)%Q →
  Forall (λ c, resets k c = false) cs →
  accounted (window_size self) ts (user_requests self !! k) →
  accounted (window_size self)
    (ts ++ admitted_times k (run cs self).1)
    (user_requests (run cs self).2 !! k).
Proof.
  induction cs as [|c cs IH]; intros self ts Hm Hs Hrs Hacc.
  - simpl. by rewrite app_nil_r.
  - apply Forall_cons in Hrs as [Hr Hrs].
    rewrite run_cons. cbn [fst snd].
    rewrite admitted_times_cons, app_assoc.
    destruct (step_config c self) as [Hm' Hs'].
    rewrite <- Hs'. apply IH; rewrite ?Hm', ?Hs'; try done.
    by apply step_accounted.
Qed.

Lemma nondecreasing_cons t ts :
  nondecreasing (t :: ts) = true →
  Forall (λ t', (t <= t')%Q) ts ∧ nondecreasing ts = true.
Proof.
  revert t. induction ts as [|t' ts IH]; intros t H; [done|].
  cbn [nondecreasing] in H. apply andb_true_iff in H as [Hle Hts].
  apply Qle_bool_iff in Hle. split; [|exact Hts].
  constructor; [exact Hle|].
  destruct (IH t' Hts) as [Hall _].
  eapply Forall_impl; [exact Hall|]. intros u Hu. simpl in Hu. lra.
Qed.

Lemma nondecreasing_app_r ts1 : ∀ ts2,
  nondecreasing (ts1 ++ ts2) = true → nondecreasing ts2 = true.
Proof.
  induction ts1 as [|t ts1 IH]; intros ts2 H; [done|].
  apply IH. rewrite <- app_comm_cons in H. by apply nondecreasing_cons in H as [_ ?].
Qed.

Lemma allow_times_app cs1 cs2 :
  allow_times (cs1 ++ cs2) = allow_times cs1 ++ allow_times cs2.
Proof.
  induction cs1 as [|c cs1 IH]; [done|].
  rewrite <- app_comm_cons. destruct c; simpl; by rewrite IH.
Qed.

(** Admissions happen at readings of [is_allowed] calls. *)
Lemma admitted_times_allow_times (P : Q → Prop) k cs : ∀ self,
  Forall P (allow_times cs) → Forall P (admitted_times k (run cs self).1).
Proof.
  induction cs as [|c cs IH]; intros self H; [constructor|].
  rewrite run_cons. cbn [fst]. rewrite admitted_times_cons.
  apply Forall_app. destruct c as [now k'|now k'|k'| |clock];
    try (split; [constructor | by apply IH]).
  cbn [allow_times] in H. apply Forall_cons in H as [Hnow H].
  split; [|by apply IH].
  rewrite step_is_allowed. cbn [fst].
  destruct (decide (k' = k)) as [->|Hne].
  - rewrite admitted_times_allowed.
    destruct (is_allowed now k self).1; by repeat constructor.
  - rewrite admitted_times_other by done. constructor.
Qed.

(** From a stored window [(w, c)] on, the count and the later admissions
    in the window together stay within the limit, as long as the clock
    does not go back and the key is not reset. *)
Lemma later_admissions k cs : ∀ self w c,
  (0 < max_requests self)%Z →
  (0 < window_size self)%Q →
  user_requests self !! k = Some (w, c) →
  (c ≤ max_requests self)%Z →
  Forall (λ c, resets k c = false) cs →
  nondecreasing (allow_times cs) = true →
  (c + admissions k w (w + window_size self) (run cs self).1 ≤ max_requests self)%Z.
Proof.
  unfold admissions.
  induction cs as [|c0 cs IH]; intros self w c Hm Hs Hk Hc Hrs Hmono.
  { unfold count_in. simpl. lia. }
  apply Forall_cons in Hrs as [Hr Hrs].
  rewrite run_cons. cbn [fst]. rewrite admitted_times_cons, count_in_app.
  destruct (step_config c0 self) as [Hm' Hs'].
  assert (Hskip : ∀ c',
    admitted_times k [(c0, (step c0 self).1)] = [] →
    nondecreasing (allow_times cs) = true →
    user_requests (step c0 self).2 !! k = Some (w, c') →
    (c' ≤ max_requests self)%Z → (c ≤ c')%Z →
    (c + (count_in w (w + window_size self) (admitted_times k [(c0, (step c0 self).1)])
          + count_in w (w + window_size self)
              (admitted_times k (run cs (step c0 self).2).1))
     ≤ max_requests self)%Z).
  { intros c' Hnil Hmono' Hk' Hc' Hcc'. rewrite Hnil.
    specialize (IH (step c0 self).2 w c').
    rewrite Hm', Hs' in IH. specialize (IH Hm Hs Hk' Hc' Hrs Hmono').
    unfold count_in at 1. simpl. lia. }
  destruct c0 as [now k'|now k'|k'| |clock].
  - cbn [allow_times] in Hmono. apply nondecreasing_cons in Hmono as [Hlater Hmono].
    rewrite step_is_allowed in *. cbn [fst snd] in *.
    destruct (decide (k' = k)) as [->|Hne].
    2:{ apply (Hskip c); [by apply admitted_times_other | done | | done | lia].
        by rewrite is_allowed_frame. }
    pose proof (window_of_stored k _ _ Hk) as Hw.
    destruct (Qge_bool (now - w) (window_size self)) eqn:He.
    + apply Qge_bool_true in He.
      rewrite (count_in_outside _ _ (admitted_times k [_])).
      2:{ rewrite admitted_times_allowed.
          destruct (is_allowed now k self).1; [|constructor].
          apply Forall_cons. split; [right; lra | constructor]. }
      rewrite count_in_outside; [lia|].
      apply admitted_times_allow_times.
      eapply Forall_impl; [exact Hlater|]. intros t Ht. simpl in Ht. right. lra.
    + apply Qge_bool_false in He.
      pose proof (is_allowed_within now k self w c Hw He) as Hstep.
      destruct (c <? max_requests self)%Z eqn:Ec.
      * apply Z.ltb_lt in Ec.
        specialize (IH (is_allowed now k self).2 w (c + 1)%Z).
        rewrite Hm', Hs' in IH.
        assert (Hk' : user_requests (is_allowed now k self).2 !! k
                      = Some (w, (c + 1)%Z)).
        { rewrite Hstep. simpl. apply lookup_insert_eq. }
        specialize (IH Hm Hs Hk' ltac:(lia) Hrs Hmono).
        pose proof (count_in_one w (w + window_size self) now) as H1.
        rewrite admitted_times_allowed. rewrite Hstep in IH |- *.
        cbn [fst snd] in IH |- *. lia.
      * apply (Hskip c); [| done | | done | lia].
        { rewrite admitted_times_allowed, Hstep. done. }
        { rewrite Hstep. simpl. by rewrite lookup_insert_eq. }
  - cbn [allow_times] in Hmono.
    apply (Hskip c); [done | done | | done | lia].
    rewrite step_get_status, get_status_store. cbn [snd user_requests with_requests].
    rewrite lookup_insert. case_decide; [|done].
    subst k'. by rewrite (window_of_stored k _ _ Hk).
  - cbn [allow_times] in Hmono. simpl in Hr. apply bool_decide_eq_false in Hr.
    apply (Hskip c); [done | done | | done | lia].
    cbn [step snd]. unfold reset_user. cbn [user_requests with_requests].
    by rewrite lookup_insert_ne.
  - discriminate.
  - cbn [allow_times] in Hmono.
    apply (Hskip c); [done | done | done | done | lia].
Qed.

(** ** The limit invariant *)

(** C2, as the code has it.  For a constructed limiter and every sequence
    of calls: every stored count is between 0 and [max_requests].  When
    the sequence has no [reset_user] of the key and no [reset_all], the
    admissions of a key at clock readings inside its stored window are at
    most the stored count, hence at most [max_requests]; and when
    moreover the clock never goes back, the same bound holds for every
    window that was stored at some point of the run, over the whole run. *)
Theorem limit_invariant mr ws self cs :
  __init__ mr ws = inr self →
  count_bounded (run cs self).2
  ∧ max_requests (run cs self).2 = mr
  ∧ (∀ k w c,
       Forall (λ c, resets k c = false) cs →
       user_requests (run cs self).2 !! k = Some (w, c) →
       (admissions k w (w + ws) (run cs self).1 ≤ c ≤ mr)%Z)
  ∧ (∀ cs1 cs2 k w c,
       cs = cs1 ++ cs2 →
       Forall (λ c, resets k c = false) cs →
       nondecreasing (allow_times cs) = true →
       user_requests (run cs1 self).2 !! k = Some (w, c) →
       (admissions k w (w + ws) (run cs self).1 ≤ mr)%Z).
Proof.
  intros Hinit. destruct (init_inv mr ws self Hinit) as (Hm & Hs & He & Hmr & Hws).
  assert (Hbounded : ∀ cs', count_bounded (run cs' self).2).
  { intros cs'. apply run_count_bounded; [lia|]. intros k w c. by rewrite He. }
  assert (Hwindow : ∀ cs' k w c,
       Forall (λ c, resets k c = false) cs' →
       user_requests (run cs' self).2 !! k = Some (w, c) →
       (admissions k w (w + ws) (run cs' self).1 ≤ c)%Z).
  { intros cs' k w c Hrs Hk.
    pose proof (run_accounted k cs' self [] ltac:(lia) ltac:(by rewrite Hs) Hrs) as Hacc.
    rewrite He, lookup_empty, Hk, Hs in Hacc. by destruct Hacc. }
  destruct (run_config cs self) as [Hmc _].
  split; [apply Hbounded|]. split; [by rewrite Hmc|]. split.
  - intros k w c Hrs Hk. split; [by apply Hwindow|].
    destruct (Hbounded cs k w c Hk) as [_ Hc]. by rewrite Hmc, Hm in Hc.
  - intros cs1 cs2 k w c -> Hrs Hmono Hk.
    apply Forall_app in Hrs as [Hrs1 Hrs2].
    rewrite allow_times_app in Hmono. apply nondecreasing_app_r in Hmono.
    destruct (run_config cs1 self) as [Hm1 Hs1].
    destruct (Hbounded cs1 k w c Hk) as [_ Hc].
    pose proof (Hwindow cs1 k w c Hrs1 Hk) as H1.
    pose proof (later_admissions k cs2 (run cs1 self).2 w c) as H2.
    rewrite Hm1, Hs1, Hm, Hs in H2. rewrite Hm1, Hm in Hc.
    specialize (H2 Hmr Hws Hk Hc Hrs2 Hmono).
    rewrite run_app. cbn [fst]. unfold admissions in *.
    rewrite admitted_times_app, count_in_app. lia.
Qed.

Lemma limit_invariant_witness :
  __init__ 5 60 = inr limiter_5_60
  ∧ Forall (λ c, resets "alice" c = false) two_windows
  ∧ nondecreasing (allow_times two_windows) = true
  ∧ user_requests (run (take 2 two_windows) limiter_5_60).2 !! "alice"
    = Some (100%Q, 2%Z)
  ∧ user_requests (run two_windows limiter_5_60).2 !! "alice" = Some (170%Q, 1%Z)
  ∧ (admissions "alice" 170 (170 + 60) (run two_windows limiter_5_60).1 ≤ 1 ≤ 5)%Z
  ∧ (admissions "alice" 100 (100 + 60) (run two_windows limiter_5_60).1 ≤ 5)%Z.
Proof.
  assert (H0 : __init__ 5 60 = inr limiter_5_60) by reflexivity.
  assert (H1 : Forall (λ c, resets "alice" c = false) two_windows)
    by (repeat constructor).
  assert (H2 : nondecreasing (allow_times two_windows) = true) by reflexivity.
  assert (H3 : user_requests (run (take 2 two_windows) limiter_5_60).2 !! "alice"
               = Some (100%Q, 2%Z)) by (vm_compute; reflexivity).
  assert (H4 : user_requests (run two_windows limiter_5_60).2 !! "alice"
               = Some (170%Q, 1%Z)) by (vm_compute; reflexivity).
  split; [exact H0|]. split; [exact H1|]. split; [exact H2|].
  split; [exact H3|]. split; [exact H4|].
  destruct (limit_invariant 5 60 limiter_5_60 two_windows H0) as (_ & _ & Hw & Ha).
  split.
  - exact (Hw "alice" 170%Q 1%Z H1 H4).
  - exact (Ha (take 2 two_windows) (drop 2 two_windows) "alice" 100%Q 2%Z
              eq_refl H1 H2 H3).
Defined.

(** A [reset_user] between calls lets more than [max_requests] calls
    through within one window: after five admissions at the reading 100
    the key is reset, the next call at 100 opens the window at 100 again,
    and six calls have been admitted in the 60 seconds from 100 on. *)
Lemma reset_user_readmits_in_window :
  __init__ 5 60 = inr limiter_5_60
  ∧ user_requests (run reset_then_retry limiter_5_60).2 !! "alice"
    = Some (100%Q, 1%Z)
  ∧ admissions "alice" 100 (100 + 60) (run reset_then_retry limiter_5_60).1 = 6%Z
  ∧ ¬ (admissions "alice" 100 (100 + 60) (run reset_then_retry limiter_5_60).1
       ≤ max_requests (run reset_then_retry limiter_5_60).2)%Z.
Proof.
  split; [reflexivity|]. split; [vm_compute; reflexivity|].
  split; [vm_compute; reflexivity|].
  vm_compute. intros H. by apply H.
Qed.

(** * Further properties of the limiter *)

(** ** How many calls a window admits *)

Lemma count_allowed_cons now clock k self :
  count_allowed (now :: clock) k self =
    (((if (is_allowed now k self).1 then 1 else 0)
      + (count_allowed clock k (is_allowed now k self).2).1)%Z,
     (count_allowed clock k (is_allowed now k self).2).2).
Proof.
  simpl. destruct (is_allowed now k self) as [b self']. simpl.
  by destruct (count_allowed clock k self') as [n self''].
Qed.

Lemma count_allowed_app clock1 : ∀ clock2 k self,
  count_allowed (clock1 ++ clock2) k self =
    (((count_allowed clock1 k self).1
      + (count_allowed clock2 k (count_allowed clock1 k self).2).1)%Z,
     (count_allowed clock2 k (count_allowed clock1 k self).2).2).
Proof.
  induction clock1 as [|t clock1 IH]; intros clock2 k self.
  - simpl. by destruct (count_allowed clock2 k self).
  - rewrite <- app_comm_cons, !count_allowed_cons, IH. cbn [fst snd].
    f_equal. lia.
Qed.

Lemma count_allowed_config clock : ∀ k self,
  max_requests (count_allowed clock k self).2 = max_requests self
  ∧ window_size (count_allowed clock k self).2 = window_size self.
Proof.
  induction clock as [|t clock IH]; intros k self; [done|].
  rewrite count_allowed_cons. cbn [snd].
  destruct (IH k (is_allowed t k self).2) as [-> ->]. apply is_allowed_config.
Qed.

(** Calls at readings inside the window [(w, c)] of a key: as many are
    admitted as the window has room for. *)
Lemma count_allowed_within k clock : ∀ self w c,
  window_of k (user_requests self) = (w, c) →
  (c ≤ max_requests self)%Z →
  Forall (λ t, (t - w < window_size self)%Q) clock →
  (count_allowed clock k self).1
    = Z.min (Z.of_nat (length clock)) (max_requests self - c)
  ∧ window_of k (user_requests (count_allowed clock k self).2)
    = (w, (c + Z.min (Z.of_nat (length clock)) (max_requests self - c))%Z).
Proof.
  induction clock as [|t clock IH]; intros self w c Hw Hc Hts.
  { cbn [count_allowed length fst snd]. rewrite Hw.
    split; [lia | f_equal; lia]. }
  apply Forall_cons in Hts as [Ht Hts].
  rewrite count_allowed_cons. cbn [fst snd].
  pose proof (is_allowed_within t k self w c Hw Ht) as Hstep.
  destruct (is_allowed_config t k self) as [Hm Hs].
  destruct (c <? max_requests self)%Z eqn:Ec;
    [apply Z.ltb_lt in Ec | apply Z.ltb_ge in Ec].
  - destruct (IH (is_allowed t k self).2 w (c + 1)%Z) as [H1 H2].
    { apply window_of_stored. rewrite Hstep. simpl. apply lookup_insert_eq. }
    { rewrite Hm. lia. }
    { by rewrite Hs. }
    rewrite H1, H2, Hm, Hstep. cbn [fst length].
    split; [lia | f_equal; lia].
  - destruct (IH (is_allowed t k self).2 w c) as [H1 H2].
    { apply window_of_stored. rewrite Hstep. simpl. apply lookup_insert_eq. }
    { rewrite Hm. lia. }
    { by rewrite Hs. }
    rewrite H1, H2, Hm, Hstep. cbn [fst length].
    split; [lia | f_equal; lia].
Qed.

(** Calls at one reading [now] at which the window of the key has
    expired: the first opens a window at [now], which admits up to the
    limit. *)
Lemma count_allowed_expired k now n self w c :
  (0 < max_requests self)%Z →
  (0 < window_size self)%Q →
  window_of k (user_requests self) = (w, c) →
  (window_size self <= now - w)%Q →
  (count_allowed (replicate (S n) now) k self).1
    = Z.min (Z.of_nat (S n)) (max_requests self)
  ∧ window_of k (user_requests (count_allowed (replicate (S n) now) k self).2)
    = (now, Z.min (Z.of_nat (S n)) (max_requests self)).
Proof.
  intros Hm Hs Hw He. cbn [replicate]. rewrite count_allowed_cons. cbn [fst snd].
  pose proof (is_allowed_expired now k self w c Hw He) as Hstep.
  pose proof Hm as Hlt. apply Z.ltb_lt in Hlt. rewrite Hlt in Hstep.
  destruct (is_allowed_config now k self) as [Hm' Hs'].
  destruct (count_allowed_within k (replicate n now) (is_allowed now k self).2
              now 1%Z) as [H1 H2].
  { apply window_of_stored. rewrite Hstep. simpl. apply lookup_insert_eq. }
  { rewrite Hm'. lia. }
  { apply Forall_replicate. rewrite Hs'. lra. }
  rewrite H1, H2, Hm', length_replicate, Hstep. cbn [fst].
  split; [lia | f_equal; lia].
Qed.

(** Calls at one reading on a key whose window is the default [(0, 0)]. *)
Lemma count_allowed_default_window k now n self :
  (0 < max_requests self)%Z →
  (0 < window_size self)%Q →
  window_of k (user_requests self) = (0%Q, 0%Z) →
  (count_allowed (replicate n now) k self).1
    = Z.min (Z.of_nat n) (max_requests self).
Proof.
  intros Hm Hs Hw. destruct n as [|n].
  { cbn [replicate count_allowed fst]. lia. }
  destruct (Qge_bool (now - 0) (window_size self)) eqn:He.
  - apply Qge_bool_true in He.
    apply (count_allowed_expired k now n self 0%Q 0%Z Hm Hs Hw He).
  - apply Qge_bool_false in He.
    destruct (count_allowed_within k (replicate (S n) now) self 0%Q 0%Z Hw)
      as [H1 _]; [lia | by apply Forall_replicate |].
    rewrite H1, length_replicate. lia.
Qed.

Lemma is_allowed_stores_key now k self :
  user_requests (is_allowed now k self).2 !! k
    = Some (window_of k (user_requests (is_allowed now k self).2)).
Proof.
  destruct (window_of k (user_requests self)) as [w c] eqn:Hw.
  destruct (Qge_bool (now - w) (window_size self)) eqn:He.
  - apply Qge_bool_true in He. rewrite (is_allowed_expired now k self w c Hw He).
    destruct (0 <? max_requests self)%Z; cbn [snd user_requests with_requests];
      unfold window_of; by rewrite lookup_insert_eq.
  - apply Qge_bool_false in He. rewrite (is_allowed_within now k self w c Hw He).
    destruct (c <? max_requests self)%Z; cbn [snd user_requests with_requests];
      unfold window_of; by rewrite lookup_insert_eq.
Qed.

Lemma is_allowed_keeps_keys now k k' self :
  is_Some (user_requests self !! k') →
  is_Some (user_requests (is_allowed now k self).2 !! k').
Proof.
  intros Hk'. destruct (decide (k = k')) as [->|Hne].
  - rewrite is_allowed_stores_key. by eexists.
  - by rewrite is_allowed_frame.
Qed.

Lemma count_allowed_keeps_keys clock : ∀ k k' self,
  is_Some (user_requests self !! k') →
  is_Some (user_requests (count_allowed clock k self).2 !! k').
Proof.
  induction clock as [|t clock IH]; intros k k' self Hk'; [done|].
  rewrite count_allowed_cons. cbn [snd]. apply IH. by apply is_allowed_keeps_keys.
Qed.

(** X1: calls on a key at clock readings inside its stored window
    [(w, c)], with [c] within the limit: exactly
    [min n (max_requests - c)] of [n] calls are admitted, and the stored
    count grows by that number while the window start stays. *)
Theorem quota_within_window k clock self w c :
  user_requests self !! k = Some (w, c) →
  (c ≤ max_requests self)%Z →
  Forall (λ t, (t - w < window_size self)%Q) clock →
  (count_allowed clock k self).1
    = Z.min (Z.of_nat (length clock)) (max_requests self - c)
  ∧ user_requests (count_allowed clock k self).2 !! k
    = Some (w, (c + Z.min (Z.of_nat (length clock)) (max_requests self - c))%Z).
Proof.
  intros Hk Hc Hts.
  destruct (count_allowed_within k clock self w c (window_of_stored k _ _ Hk) Hc Hts)
    as [H1 H2].
  split; [exact H1|].
  destruct (count_allowed_keeps_keys clock k k self) as [v Hv]; [by eexists|].
  rewrite Hv. f_equal. by rewrite <- (window_of_stored k _ _ Hv).
Qed.

Lemma quota_within_window_witness :
  user_requests alice_at_limit !! "alice" = Some (100%Q, 5%Z)
  ∧ (5 ≤ max_requests alice_at_limit)%Z
  ∧ Forall (λ t, (t - 100 < window_size alice_at_limit)%Q) [101; 159]%Q
  ∧ (count_allowed [101; 159]%Q "alice" alice_at_limit).1 = 0%Z.
Proof.
  assert (H1 : user_requests alice_at_limit !! "alice" = Some (100%Q, 5%Z))
    by reflexivity.
  assert (H2 : (5 ≤ max_requests alice_at_limit)%Z) by (vm_compute; discriminate).
  assert (H3 : Forall (λ t, (t - 100 < window_size alice_at_limit)%Q) [101; 159]%Q)
    by (repeat constructor).
  split; [exact H1|]. split; [exact H2|]. split; [exact H3|].
  exact (proj1 (quota_within_window "alice" [101; 159]%Q alice_at_limit
                  100 5 H1 H2 H3)).
Defined.

(** X2: a key that is not stored gets exactly [min n max_requests] of
    [n] calls made at one clock reading, whatever the reading. *)
Theorem quota_of_new_key k now n self :
  (0 < max_requests self)%Z →
  (0 < window_size self)%Q →
  user_requests self !! k = None →
  (count_allowed (replicate n now) k self).1
    = Z.min (Z.of_nat n) (max_requests self).
Proof.
  intros Hm Hs Hk. apply count_allowed_default_window; try done.
  by apply window_of_missing.
Qed.

Lemma quota_of_new_key_witness :
  (0 < max_requests limiter_5_60)%Z
  ∧ (0 < window_size limiter_5_60)%Q
  ∧ user_requests limiter_5_60 !! "user_xyz" = None
  ∧ (count_allowed (replicate 50 1000%Q) "user_xyz" limiter_5_60).1 = 5%Z.
Proof.
  assert (H1 : (0 < max_requests limiter_5_60)%Z) by (vm_compute; reflexivity).
  assert (H2 : (0 < window_size limiter_5_60)%Q) by (vm_compute; reflexivity).
  assert (H3 : user_requests limiter_5_60 !! "user_xyz" = None) by reflexivity.
  split; [exact H1|]. split; [exact H2|]. split; [exact H3|].
  exact (quota_of_new_key "user_xyz" 1000%Q 50 limiter_5_60 H1 H2 H3).
Defined.

(** X3: [reset_user] and [reset_all] give the key a whole quota back,
    whatever was stored: of [n] calls made at one clock reading after the
    reset exactly [min n max_requests] are admitted. *)
Theorem quota_after_reset k now n self :
  (0 < max_requests self)%Z →
  (0 < window_size self)%Q →
  (count_allowed (replicate n now) k (reset_user k self)).1
    = Z.min (Z.of_nat n) (max_requests self)
  ∧ (count_allowed (replicate n now) k (reset_all self)).1
    = Z.min (Z.of_nat n) (max_requests self).
Proof.
  intros Hm Hs. split.
  - apply (count_allowed_default_window k now n (reset_user k self) Hm Hs).
    apply window_of_stored. unfold reset_user. simpl. apply lookup_insert_eq.
  - apply (count_allowed_default_window k now n (reset_all self) Hm Hs).
    apply window_of_missing. apply lookup_empty.
Qed.

Lemma quota_after_reset_witness :
  (0 < max_requests alice_at_limit)%Z
  ∧ (0 < window_size alice_at_limit)%Q
  ∧ (count_allowed (replicate 7 130%Q) "alice" alice_at_limit).1 = 0%Z
  ∧ (count_allowed (replicate 7 130%Q) "alice"
       (reset_user "alice" alice_at_limit)).1 = 5%Z.
Proof.
  assert (H1 : (0 < max_requests alice_at_limit)%Z) by (vm_compute; reflexivity).
  assert (H2 : (0 < window_size alice_at_limit)%Q) by (vm_compute; reflexivity).
  split; [exact H1|]. split; [exact H2|]. split; [vm_compute; reflexivity|].
  exact (proj1 (quota_after_reset "alice" 130%Q 7 alice_at_limit H1 H2)).
Defined.

(** X4: the seam of two windows.  With a stored window [(w, c)], the
    [max_requests - c] calls that fill it at a reading [t1] inside it and
    [max_requests] further calls at a reading [t2] at or after its end are
    all admitted, however close [t1] and [t2] are: up to twice the limit
    within less than one window size. *)
Theorem burst_across_window_boundary k t1 t2 self w c :
  (0 < max_requests self)%Z →
  (0 < window_size self)%Q →
  user_requests self !! k = Some (w, c) →
  (0 ≤ c ≤ max_requests self)%Z →
  (t1 - w < window_size self)%Q →
  (window_size self <= t2 - w)%Q →
  (count_allowed
     (replicate (Z.to_nat (max_requests self - c)) t1
      ++ replicate (Z.to_nat (max_requests self)) t2) k self).1
    = (2 * max_requests self - c)%Z.
Proof.
  intros Hm Hs Hk Hc H1 H2.
  rewrite count_allowed_app. cbn [fst].
  pose proof (window_of_stored k _ _ Hk) as Hw.
  destruct (count_allowed_within k (replicate (Z.to_nat (max_requests self - c)) t1)
              self w c Hw) as [Ha Hwa]; [lia | by apply Forall_replicate |].
  rewrite length_replicate in Ha, Hwa.
  destruct (count_allowed_config (replicate (Z.to_nat (max_requests self - c)) t1)
              k self) as [Hm' Hs'].
  destruct (Z.to_nat (max_requests self)) as [|m] eqn:Em; [lia|].
  destruct (count_allowed_expired k t2 m
              (count_allowed (replicate (Z.to_nat (max_requests self - c)) t1)
                 k self).2 w
              (c + Z.min (Z.of_nat (Z.to_nat (max_requests self - c)))
                     (max_requests self - c))%Z) as [Hb _].
  { by rewrite Hm'. }
  { by rewrite Hs'. }
  { exact Hwa. }
  { by rewrite Hs'. }
  rewrite Ha, Hb, Hm'. lia.
Qed.

Lemma burst_across_window_boundary_witness :
  (0 < max_requests alice_at_limit)%Z
  ∧ (0 < window_size alice_at_limit)%Q
  ∧ user_requests (reset_user "bob" alice_at_limit) !! "bob" = Some (0%Q, 0%Z)
  ∧ (59 - 0 < window_size alice_at_limit)%Q
  ∧ (window_size alice_at_limit <= 60 - 0)%Q
  ∧ (count_allowed (replicate 5 59%Q ++ replicate 5 60%Q) "bob"
       (reset_user "bob" alice_at_limit)).1 = 10%Z.
Proof.
  assert (H1 : (0 < max_requests alice_at_limit)%Z) by (vm_compute; reflexivity).
  assert (H2 : (0 < window_size alice_at_limit)%Q) by (vm_compute; reflexivity).
  assert (H3 : user_requests (reset_user "bob" alice_at_limit) !! "bob"
               = Some (0%Q, 0%Z)) by reflexivity.
  assert (H4 : (59 - 0 < window_size alice_at_limit)%Q) by (vm_compute; reflexivity).
  assert (H5 : (window_size alice_at_limit <= 60 - 0)%Q)
    by (vm_compute; discriminate).
  split; [exact H1|]. split; [exact H2|]. split; [exact H3|].
  split; [exact H4|]. split; [exact H5|].
  exact (burst_across_window_boundary "bob" 59 60
           (reset_user "bob" alice_at_limit) 0 0 H1 H2 H3
           ltac:(vm_compute; split; discriminate) H4 H5).
Defined.

(** ** Status queries are invisible to admission *)

Lemma same_windows_refl self : same_windows self self.
Proof. done. Qed.

Lemma same_windows_insert k v l1 l2 :
  same_windows l1 l2 →
  same_windows (with_requests l1 (<[k := v]> (user_requests l1)))
               (with_requests l2 (<[k := v]> (user_requests l2))).
Proof.
  intros (Hm & Hs & Hw). split; [done|]. split; [done|].
  intros k'. specialize (Hw k'). unfold window_of in *. simpl.
  rewrite !lookup_insert. by case_decide.
Qed.

Lemma is_allowed_same_windows now k l1 l2 :
  same_windows l1 l2 →
  (is_allowed now k l1).1 = (is_allowed now k l2).1
  ∧ same_windows (is_allowed now k l1).2 (is_allowed now k l2).2.
Proof.
  intros Hsame. pose proof Hsame as (Hm & Hs & Hw). specialize (Hw k).
  destruct (window_of k (user_requests l2)) as [w c] eqn:Hw2.
  destruct (Qge_bool (now - w) (window_size l1)) eqn:He.
  - apply Qge_bool_true in He.
    rewrite (is_allowed_expired now k l1 w c Hw He).
    rewrite Hs in He. rewrite (is_allowed_expired now k l2 w c Hw2 He).
    rewrite Hm. destruct (0 <? max_requests l2)%Z; cbn [fst snd];
      (split; [done | by apply same_windows_insert]).
  - apply Qge_bool_false in He.
    rewrite (is_allowed_within now k l1 w c Hw He).
    rewrite Hs in He. rewrite (is_allowed_within now k l2 w c Hw2 He).
    rewrite Hm. destruct (c <? max_requests l2)%Z; cbn [fst snd];
      (split; [done | by apply same_windows_insert]).
Qed.

Lemma get_status_same_windows now k self :
  same_windows (get_status now k self).2 self.
Proof.
  rewrite get_status_store. split; [done|]. split; [done|].
  intros k'. unfold window_of. simpl. rewrite lookup_insert.
  case_decide; [by subst k'|done].
Qed.

Lemma same_windows_trans l1 l2 l3 :
  same_windows l1 l2 → same_windows l2 l3 → same_windows l1 l3.
Proof.
  intros (Hm & Hs & Hw) (Hm' & Hs' & Hw').
  split; [congruence|]. split; [congruence|]. intros k. by rewrite Hw.
Qed.

Lemma allowed_results_cons e log :
  allowed_results (e :: log) = allowed_results [e] ++ allowed_results log.
Proof. unfold allowed_results. simpl. by destruct (allowed_result e). Qed.

Lemma allowed_results_skip c r log :
  (∀ now k, c ≠ IsAllowed now k) →
  allowed_results ((c, r) :: log) = allowed_results log.
Proof.
  intros Hc. unfold allowed_results. simpl.
  destruct c; try done. by destruct (Hc current_time user_id).
Qed.

Lemma run_without_queries cs : ∀ l1 l2,
  same_windows l1 l2 →
  allowed_results (run cs l1).1
    = allowed_results (run (List.filter (λ c, negb (is_query c)) cs) l2).1
  ∧ same_windows (run cs l1).2
      (run (List.filter (λ c, negb (is_query c)) cs) l2).2.
Proof.
  induction cs as [|c cs IH]; intros l1 l2 Hsame; [done|].
  rewrite run_cons. cbn [fst snd List.filter].
  destruct c as [now k|now k|k| |clock]; cbn [is_query negb].
  - rewrite run_cons. cbn [fst snd].
    rewrite (allowed_results_cons (IsAllowed now k, _)),
            (allowed_results_cons (IsAllowed now k, (step _ l2).1)).
    rewrite !step_is_allowed. cbn [fst snd].
    destruct (is_allowed_same_windows now k l1 l2 Hsame) as [Hb Hsame'].
    destruct (IH _ _ Hsame') as [Hr Hf]. by rewrite Hb, Hr.
  - rewrite allowed_results_skip by done. rewrite step_get_status. cbn [snd].
    apply IH. eapply same_windows_trans; [apply get_status_same_windows|done].
  - rewrite run_cons. cbn [fst snd step]. rewrite !allowed_results_skip by done.
    apply IH. by apply same_windows_insert.
  - rewrite run_cons. cbn [fst snd step]. rewrite !allowed_results_skip by done.
    apply IH. destruct Hsame as (Hm & Hs & _). done.
  - rewrite allowed_results_skip by done. cbn [step get_all_users_status fst snd].
    by apply IH.
Qed.

(** X5: [get_status] and [get_all_users_status] calls never change an
    admission decision: in every sequence of calls, the [is_allowed]
    calls return what they return when all status queries are left out,
    and the limiter ends with the same limits and the same window for
    every key. *)
Theorem status_queries_do_not_affect_admission cs self :
  allowed_results (run cs self).1
    = allowed_results (run (List.filter (λ c, negb (is_query c)) cs) self).1
  ∧ same_windows (run cs self).2
      (run (List.filter (λ c, negb (is_query c)) cs) self).2.
Proof. apply run_without_queries, same_windows_refl. Qed.

(** ** What the status reports *)

Lemma get_status_counts now k self :
  ∃ w c,
    window_of k (user_requests self) = (w, c)
    ∧ (Status.requests_made (get_status now k self).1 = c
       ∨ Status.requests_made (get_status now k self).1 = 0%Z)
    ∧ Status.requests_remaining (get_status now k self).1
      = (max_requests self - Status.requests_made (get_status now k self).1)%Z
    ∧ Status.limit (get_status now k self).1 = max_requests self.
Proof.
  destruct (window_of k (user_requests self)) as [w c] eqn:Hw.
  exists w, c. split; [done|].
  destruct (Qge_bool (now - w) (window_size self)) eqn:He.
  - apply Qge_bool_true in He. rewrite (get_status_expired now k self w c Hw He).
    simpl. auto.
  - apply Qge_bool_false in He. rewrite (get_status_within now k self w c Hw He).
    simpl. auto.
Qed.

(** X6: for a constructed limiter, after any sequence of calls, the
    status of any key reports between 0 and [max_requests] requests made
    and as many remaining as are missing to the limit, so never a negative
    number; so does every entry of the bulk status. *)
Theorem status_within_limit mr ws self cs now clock k :
  __init__ mr ws = inr self →
  (0 ≤ Status.requests_made (get_status now k (run cs self).2).1 ≤ mr)%Z
  ∧ (0 ≤ Status.requests_remaining (get_status now k (run cs self).2).1 ≤ mr)%Z
  ∧ (Status.requests_made (get_status now k (run cs self).2).1
     + Status.requests_remaining (get_status now k (run cs self).2).1 = mr)%Z
  ∧ Status.limit (get_status now k (run cs self).2).1 = mr
  ∧ (∀ u, (get_all_users_status clock (run cs self).2).1 !! k = Some u →
       (0 ≤ UserStatus.requests_made u ≤ mr)%Z
       ∧ (0 ≤ UserStatus.requests_remaining u ≤ mr)%Z).
Proof.
  intros Hinit. destruct (init_inv mr ws self Hinit) as (Hm & Hs & He & Hmr & Hws).
  destruct (run_config cs self) as [Hmc _]. rewrite Hm in Hmc.
  assert (Hb : count_bounded (run cs self).2).
  { apply run_count_bounded; [lia|]. intros k' w c. by rewrite He. }
  destruct (get_status_counts now k (run cs self).2) as (w & c & Hw & Hmade & Hrem & Hl).
  assert (Hc : (0 ≤ c ≤ max_requests (run cs self).2)%Z)
    by (apply (window_of_bounded k _ w c); [lia | done | done]).
  rewrite Hmc in Hrem, Hl, Hc.
  split; [destruct Hmade as [-> | ->]; lia|].
  split; [destruct Hmade as [Hd | Hd]; rewrite Hrem, Hd; lia|].
  split; [lia|]. split; [done|].
  intros u Hu. rewrite get_all_users_status_lookup in Hu.
  destruct (user_requests (run cs self).2 !! k) as [[w' c']|] eqn:Hk; [|done].
  inversion Hu; subst u; clear Hu. simpl.
  pose proof (Hb k w' c' Hk) as Hc'. rewrite Hmc in *. lia.
Qed.

Lemma status_within_limit_witness :
  __init__ 5 60 = inr limiter_5_60
  ∧ (0 ≤ Status.requests_remaining
           (get_status 130 "alice" (run reset_then_retry limiter_5_60).2).1 ≤ 5)%Z.
Proof.
  assert (H0 : __init__ 5 60 = inr limiter_5_60) by reflexivity.
  split; [exact H0|].
  exact (proj1 (proj2 (status_within_limit 5 60 limiter_5_60 reset_then_retry
                         130 (λ _, 130%Q) "alice" H0))).
Defined.

(** ** Seconds until reset *)

Lemma round_half_even_bounds x :
  (Qfloor x ≤ round_half_even x ≤ Qfloor x + 1)%Z.
Proof.
  unfold round_half_even.
  destruct (x - inject_Z (Qfloor x) ?= 1 # 2)%Q; [destruct (Z.even _)| |]; lia.
Qed.

Lemma round_half_even_nonneg x : (0 <= x)%Q → (0 ≤ round_half_even x)%Z.
Proof.
  intros Hx. pose proof (round_half_even_bounds x) as [Hlo _].
  pose proof (Qfloor_resp_le 0 x Hx) as Hf. change (Qfloor 0) with 0%Z in Hf. lia.
Qed.

Lemma round_half_even_nonpos x : (x <= 0)%Q → (round_half_even x ≤ 0)%Z.
Proof.
  intros Hx. pose proof (round_half_even_bounds x) as [_ Hhi].
  pose proof (Qfloor_resp_le x 0 Hx) as Hf. change (Qfloor 0) with 0%Z in Hf.
  destruct (decide (Qfloor x = 0%Z)) as [H0|Hne]; [|lia].
  unfold round_half_even. rewrite H0.
  assert (Hlt : (x - inject_Z 0 ?= 1 # 2)%Q = Lt).
  { apply (proj1 (Qlt_alt _ _)). pose proof (Qfloor_le x) as Hle.
    rewrite H0 in Hle. change (inject_Z 0) with 0%Q in *. lra. }
  rewrite Hlt. done.
Qed.

Lemma round2_nonneg x : (0 <= x)%Q → (0 <= round2 x)%Q.
Proof.
  intros Hx. unfold round2.
  assert (H : (0 ≤ round_half_even (x * 100))%Z)
    by (apply round_half_even_nonneg; lra).
  unfold Qle. simpl. lia.
Qed.

Lemma round2_nonpos x : (x <= 0)%Q → (round2 x <= 0)%Q.
Proof.
  intros Hx. unfold round2.
  assert (H : (round_half_even (x * 100) ≤ 0)%Z)
    by (apply round_half_even_nonpos; lra).
  unfold Qle. simpl. lia.
Qed.

(** X7: [get_status] never reports a negative [time_until_reset]: an
    expired window is reported as a fresh one.  The bulk status does no
    expiry check, and for a stored window that has expired at the reading
    taken for its entry it reports a [time_until_reset] of zero or
    less. *)
Theorem time_until_reset_sign now clock k self :
  (0 < window_size self)%Q →
  (0 <= Status.time_until_reset (get_status now k self).1)%Q
  ∧ (∀ w c u,
       user_requests self !! k = Some (w, c) →
       (window_size self <= clock k - w)%Q →
       (get_all_users_status clock self).1 !! k = Some u →
       (UserStatus.time_until_reset u <= 0)%Q).
Proof.
  intros Hs. split.
  - destruct (window_of k (user_requests self)) as [w c] eqn:Hw.
    destruct (Qge_bool (now - w) (window_size self)) eqn:He.
    + apply Qge_bool_true in He. rewrite (get_status_expired now k self w c Hw He).
      simpl. apply round2_nonneg. lra.
    + apply Qge_bool_false in He. rewrite (get_status_within now k self w c Hw He).
      simpl. apply round2_nonneg. lra.
  - intros w c u Hk He Hu. rewrite get_all_users_status_lookup, Hk in Hu.
    inversion Hu; subst u. simpl. apply round2_nonpos. lra.
Qed.

Lemma time_until_reset_sign_witness :
  (0 < window_size alice_at_limit)%Q
  ∧ user_requests alice_at_limit !! "alice" = Some (100%Q, 5%Z)
  ∧ (window_size alice_at_limit <= 200 - 100)%Q
  ∧ (0 <= Status.time_until_reset (get_status 200 "alice" alice_at_limit).1)%Q
  ∧ (∀ u, (get_all_users_status (λ _, 200%Q) alice_at_limit).1 !! "alice" = Some u →
          (UserStatus.time_until_reset u <= 0)%Q).
Proof.
  assert (H0 : (0 < window_size alice_at_limit)%Q) by (vm_compute; reflexivity).
  assert (H1 : user_requests alice_at_limit !! "alice" = Some (100%Q, 5%Z))
    by reflexivity.
  assert (H2 : (window_size alice_at_limit <= 200 - 100)%Q)
    by (vm_compute; discriminate).
  split; [exact H0|]. split; [exact H1|]. split; [exact H2|].
  destruct (time_until_reset_sign 200 (λ _, 200%Q) "alice" alice_at_limit H0)
    as [Ha Hb].
  split; [exact Ha|]. intros u Hu. exact (Hb 100%Q 5%Z u H1 H2 Hu).
Defined.

(** ** The keys of the store *)

Lemma is_allowed_dom now k self :
  dom (user_requests (is_allowed now k self).2) = {[k]} ∪ dom (user_requests self).
Proof.
  destruct (window_of k (user_requests self)) as [w c] eqn:Hw.
  destruct (Qge_bool (now - w) (window_size self)) eqn:He.
  - apply Qge_bool_true in He. rewrite (is_allowed_expired now k self w c Hw He).
    destruct (0 <? max_requests self)%Z; simpl; by rewrite dom_insert_L.
  - apply Qge_bool_false in He. rewrite (is_allowed_within now k self w c Hw He).
    destruct (c <? max_requests self)%Z; simpl; by rewrite dom_insert_L.
Qed.

Lemma step_dom c self :
  dom (user_requests (step c self).2) = touched (dom (user_requests self)) c.
Proof.
  destruct c as [now k|now k|k| |clock].
  - rewrite step_is_allowed. apply is_allowed_dom.
  - rewrite step_get_status, get_status_store. simpl. by rewrite dom_insert_L.
  - simpl. by rewrite dom_insert_L.
  - simpl. by rewrite dom_empty_L.
  - done.
Qed.

(** X8: the store holds exactly the keys that were passed to
    [is_allowed], [get_status] or [reset_user] since the last [reset_all]
    (or since the state the run starts from): a key is never dropped by
    any other call, and reading a status is enough to add one. *)
Theorem stored_keys_of_run cs self :
  dom (user_requests (run cs self).2) = foldl touched (dom (user_requests self)) cs.
Proof.
  revert self. induction cs as [|c cs IH]; intros self; [done|].
  rewrite run_cons. cbn [snd foldl]. by rewrite IH, step_dom.
Qed.

(** ** The endpoint of the first example *)

Lemma is_allowed_denied_unchanged now k self :
  (0 < max_requests self)%Z →
  (is_allowed now k self).1 = false →
  (is_allowed now k self).2 = self.
Proof.
  intros Hm Hd.
  destruct (user_requests self !! k) as [[w c]|] eqn:Hk.
  - pose proof (window_of_stored k _ _ Hk) as Hw.
    destruct (Qge_bool (now - w) (window_size self)) eqn:He.
    + apply Qge_bool_true in He.
      rewrite (is_allowed_expired now k self w c Hw He) in Hd.
      apply Z.ltb_lt in Hm. rewrite Hm in Hd. discriminate.
    + apply Qge_bool_false in He.
      rewrite (is_allowed_within now k self w c Hw He) in Hd |- *.
      destruct (c <? max_requests self)%Z; [discriminate|].
      cbn [snd]. rewrite insert_id by done. apply with_requests_same.
  - destruct (is_allowed_missing now k self Hm Hk) as [Ht _].
    rewrite Hd in Ht. discriminate.
Qed.

Lemma get_status_stored_unchanged now k self :
  is_Some (user_requests self !! k) → (get_status now k self).2 = self.
Proof.
  intros [v Hv]. rewrite get_status_store, (window_of_stored k _ _ Hv).
  rewrite insert_id by done. apply with_requests_same.
Qed.

Lemma api_endpoint_cases t1 t2 k action self :
  api_endpoint t1 t2 k action self =
    if (is_allowed t1 k self).1 then
      ({| Response.status := "success";
          Response.message := "Processing " +:+ action +:+ " for " +:+ k;
          Response.remaining :=
            Status.requests_remaining (get_status t2 k (is_allowed t1 k self).2).1 |},
       (is_allowed t1 k self).2)
    else
      ({| Response.status := "error";
          Response.message := "Rate limit exceeded";
          Response.remaining := 0 |}, (is_allowed t1 k self).2).
Proof.
  unfold api_endpoint.
  pose proof (get_status_stored_unchanged t2 k (is_allowed t1 k self).2) as Hg.
  destruct (is_allowed t1 k self) as [[] self'] eqn:E; cbn [fst snd] in *; [|done].
  assert (Hk : is_Some (user_requests self' !! k)).
  { pose proof (is_allowed_stores_key t1 k self) as H. rewrite E in H.
    cbn [snd] in H. by eexists. }
  specialize (Hg Hk).
  destruct (get_status t2 k self') as [st self''] eqn:E2. cbn [fst snd] in *.
  by subst self''.
Qed.

(** X9: [api_endpoint] answers ["error"] exactly when [is_allowed]
    denies, and then leaves the limiter as it was and reports 0
    remaining; on ["success"] the limiter is the one [is_allowed] left
    (the status read adds nothing).  When both clock readings fall into
    the stored window [(w, c)] of the user, a success reports
    [max_requests - (c + 1)] remaining: the request just admitted is
    counted. *)
Theorem api_endpoint_reports t1 t2 k action self :
  (0 < max_requests self)%Z →
  (Response.status (api_endpoint t1 t2 k action self).1 = "error"
     ↔ (is_allowed t1 k self).1 = false)
  ∧ (Response.status (api_endpoint t1 t2 k action self).1 = "error" →
       (api_endpoint t1 t2 k action self).2 = self
       ∧ Response.remaining (api_endpoint t1 t2 k action self).1 = 0%Z)
  ∧ (api_endpoint t1 t2 k action self).2 = (is_allowed t1 k self).2
  ∧ (∀ w c,
       user_requests self !! k = Some (w, c) →
       (t1 - w < window_size self)%Q →
       (t2 - w < window_size self)%Q →
       api_endpoint t1 t2 k action self =
         if (c <? max_requests self)%Z then
           ({| Response.status := "success";
               Response.message := "Processing " +:+ action +:+ " for " +:+ k;
               Response.remaining := (max_requests self - (c + 1))%Z |},
            with_requests self (<[k := (w, (c + 1)%Z)]> (user_requests self)))
         else
           ({| Response.status := "error";
               Response.message := "Rate limit exceeded";
               Response.remaining := 0 |}, self)).
Proof.
  intros Hm. rewrite api_endpoint_cases.
  assert (Hiff : Response.status
            (if (is_allowed t1 k self).1 then
               ({| Response.status := "success";
                   Response.message := "Processing " +:+ action +:+ " for " +:+ k;
                   Response.remaining :=
                     Status.requests_remaining
                       (get_status t2 k (is_allowed t1 k self).2).1 |},
                (is_allowed t1 k self).2)
             else
               ({| Response.status := "error";
                   Response.message := "Rate limit exceeded";
                   Response.remaining := 0 |}, (is_allowed t1 k self).2)).1 = "error"
           ↔ (is_allowed t1 k self).1 = false).
  { destruct (is_allowed t1 k self).1; simpl; split; congruence. }
  split; [exact Hiff|]. split; [|split].
  - intros He. apply Hiff in He.
    pose proof (is_allowed_denied_unchanged t1 k self Hm He) as Hu.
    rewrite He. cbn [fst snd]. by rewrite Hu.
  - by destruct (is_allowed t1 k self).1.
  - intros w c Hk H1 H2. pose proof (window_of_stored k _ _ Hk) as Hw.
    rewrite (is_allowed_within t1 k self w c Hw H1).
    destruct (c <? max_requests self)%Z; cbn [fst snd].
    + rewrite (get_status_within t2 k _ w (c + 1)%Z).
      * done.
      * apply window_of_stored. simpl. apply lookup_insert_eq.
      * done.
    + rewrite insert_id by done. by rewrite with_requests_same.
Qed.

Lemma api_endpoint_reports_witness :
  (0 < max_requests alice_at_limit)%Z
  ∧ Response.status (api_endpoint 130 130 "alice" "action_5" alice_at_limit).1
    = "error"
  ∧ (api_endpoint 130 130 "alice" "action_5" alice_at_limit).2 = alice_at_limit.
Proof.
  assert (H0 : (0 < max_requests alice_at_limit)%Z) by (vm_compute; reflexivity).
  split; [exact H0|].
  destruct (api_endpoint_reports 130 130 "alice" "action_5" alice_at_limit H0)
    as (Hiff & Herr & _).
  assert (He : Response.status
                 (api_endpoint 130 130 "alice" "action_5" alice_at_limit).1 = "error")
    by (apply Hiff; vm_compute; reflexivity).
  split; [exact He | exact (proj1 (Herr He))].
Defined.

(** * Properties of the text statistics *)

(** ** Stripping and splitting *)

Lemma str_lstrip_head s :
  str_lstrip s = [] ∨ ∃ c s', str_lstrip s = c :: s' ∧ isspace c = false.
Proof.
  induction s as [|c s IH]; [by left|]. simpl.
  destruct (isspace c) eqn:E; [done|]. right. by exists c, s.
Qed.

Lemma str_lstrip_nil s : str_lstrip s = [] ↔ forallb isspace s = true.
Proof.
  induction s as [|c s IH]; [done|]. simpl.
  destruct (isspace c); simpl; [done|]. split; discriminate.
Qed.

Lemma forallb_rev {A} (f : A → bool) l : forallb f (rev l) = forallb f l.
Proof.
  induction l as [|x l IH]; [done|]. simpl.
  rewrite forallb_app, IH. simpl. destruct (f x), (forallb f l); done.
Qed.

Lemma str_strip_nil s : str_strip s = [] ↔ forallb isspace s = true.
Proof.
  rewrite <- str_lstrip_nil. unfold str_strip, str_rstrip. split.
  - intros H. apply (f_equal (@rev N)) in H. rewrite rev_involutive in H.
    simpl in H. apply str_lstrip_nil in H. rewrite forallb_rev in H.
    destruct (str_lstrip_head s) as [?|(c & s' & Hs & Hc)]; [done|].
    rewrite Hs in H. simpl in H. by rewrite Hc in H.
  - by intros ->.
Qed.

Lemma split_words_nil s : ∀ word,
  split_words word s = [] ↔ word = [] ∧ forallb isspace s = true.
Proof.
  induction s as [|c s IH]; intros word; simpl.
  - destruct word; [done|]. split; [discriminate | by intros [? _]].
  - destruct (isspace c); simpl.
    + destruct word; [by rewrite IH|].
      split; [discriminate | by intros [? _]].
    + rewrite IH. split; [by intros [? _] | by intros [_ ?]].
Qed.

Lemma split_words_Forall (P : N → Prop) s : ∀ word,
  Forall P word →
  Forall (λ c, isspace c = false → P c) s →
  Forall (λ w, w ≠ [] ∧ Forall P w) (split_words word s).
Proof.
  assert (Hrev : ∀ c word, Forall P (c :: word) →
             rev (c :: word) ≠ [] ∧ Forall P (rev (c :: word))).
  { intros c word H. split; [simpl; by destruct (rev word)|].
    by apply Forall_rev. }
  induction s as [|c s IH]; intros word Hw Hs; simpl.
  - destruct word; repeat constructor; by apply Hrev.
  - apply Forall_cons in Hs as [Hc Hs]. destruct (isspace c) eqn:E.
    + destruct word; [by apply IH|].
      constructor; [by apply Hrev | by apply IH].
    + apply IH; [|done]. constructor; [by apply Hc | done].
Qed.

Lemma words_split lower text :
  words lower text = str_split (remove_punctuation (lower text)).
Proof.
  unfold words. apply forallb_filter_id. apply forallb_forall.
  intros w Hw. apply negb_true_iff, bool_decide_eq_false.
  pose proof (split_words_Forall (λ _, True) (remove_punctuation (lower text)) []
                ltac:(constructor) ltac:(by apply Forall_forall)) as H.
  rewrite Forall_forall in H. apply list_elem_of_In in Hw.
  by apply (H w Hw).
Qed.

Lemma forallb_isspace_remove_punctuation text :
  forallb isspace (remove_punctuation text)
    = forallb (λ c, isspace c || is_punctuation c) text.
Proof.
  induction text as [|c text IH]; [done|].
  unfold remove_punctuation in *. simpl.
  destruct (is_punctuation c) eqn:Ep; simpl; rewrite IH.
  - by rewrite orb_true_r.
  - by rewrite orb_false_r.
Qed.

Lemma words_nil lower text :
  words lower text = [] ↔
  forallb (λ c, isspace c || is_punctuation c) (lower text) = true.
Proof.
  rewrite words_split. unfold str_split. rewrite split_words_nil.
  rewrite forallb_isspace_remove_punctuation. split; [by intros [_ ?] | done].
Qed.

(** ** Which texts are rejected *)

(** X10: [analyze_text] raises the "empty" error exactly for texts of
    whitespace only (the empty text included); for the other texts it
    raises the "no valid words" error exactly when the lower-case form
    of the text consists of whitespace and punctuation only, and returns
    statistics exactly when that form has at least one other
    character. *)
Theorem analyze_text_errors lower float_avg text :
  (forallb isspace text = true ↔
     analyze_text lower float_avg text
       = inl (ValueError "Input string cannot be empty or contain only whitespace"))
  ∧ (forallb isspace text = false
     ∧ forallb (λ c, isspace c || is_punctuation c) (lower text) = true ↔
     analyze_text lower float_avg text
       = inl (ValueError "No valid words found after removing punctuation"))
  ∧ (forallb isspace text = false
     ∧ forallb (λ c, isspace c || is_punctuation c) (lower text) = false ↔
     ∃ r, analyze_text lower float_avg text = inr r).
Proof.
  pose proof (str_strip_nil text) as Hstrip.
  pose proof (words_nil lower text) as Hwords.
  unfold analyze_text.
  destruct (str_strip text) as [|c0 s0] eqn:Es.
  - assert (Hsp : forallb isspace text = true) by by apply Hstrip.
    rewrite Hsp. split; [done|].
    split; split; try done; [by intros [? _] | by intros [? _] | by intros [? ?]].
  - assert (Hsp : forallb isspace text = false).
    { apply not_true_is_false. intros H. by apply Hstrip in H. }
    rewrite Hsp.
    destruct (words lower text) as [|w ws] eqn:Ew.
    + assert (Hp : forallb (λ c, isspace c || is_punctuation c) (lower text) = true)
        by by apply Hwords.
      rewrite Hp. split; [done|]. split; [done|].
      split; [by intros [_ ?] | by intros [? ?]].
    + assert (Hp : forallb (λ c, isspace c || is_punctuation c) (lower text) = false).
      { apply not_true_is_false. intros H. by apply Hwords in H. }
      rewrite Hp. split; [done|]. split; [split; [by intros [_ ?] | done]|].
      split; [by eauto | done].
Qed.

Lemma analyze_text_errors_witness :
  forallb isspace (str_of "   ") = true
  ∧ analyze_text lower_ascii (λ _ _, 0%Q) (str_of "   ")
    = inl (ValueError "Input string cannot be empty or contain only whitespace")
  ∧ analyze_text lower_ascii (λ _ _, 0%Q) (str_of "!@#$%^&*()")
    = inl (ValueError "No valid words found after removing punctuation").
Proof.
  assert (H1 : forallb isspace (str_of "   ") = true) by reflexivity.
  split; [exact H1|].
  split.
  - exact (proj1 (proj1 (analyze_text_errors lower_ascii (λ _ _, 0%Q)
                           (str_of "   "))) H1).
  - apply (proj1 (proj1 (proj2 (analyze_text_errors lower_ascii (λ _ _, 0%Q)
                                  (str_of "!@#$%^&*()"))))).
    split; reflexivity.
Defined.

(** ** Sorting *)

Lemma insert_sorted_Permutation {A} (lt : A → A → bool) x l :
  insert_sorted lt x l ≡ₚ x :: l.
Proof.
  induction l as [|y l IH]; [done|]. simpl.
  destruct (lt y x); [|done]. rewrite IH. apply Permutation_swap.
Qed.

Lemma sorted_Permutation {A} (lt : A → A → bool) l : sorted lt l ≡ₚ l.
Proof.
  induction l as [|x l IH]; [done|]. unfold sorted in *. simpl.
  by rewrite insert_sorted_Permutation, IH.
Qed.

Lemma insert_sorted_StronglySorted {A} (lt : A → A → bool) x l :
  (∀ a b, lt a b = true → lt b a = false) →
  (∀ a b c, lt b a = false → lt c b = false → lt c a = false) →
  StronglySorted (λ a b, lt b a = false) l →
  StronglySorted (λ a b, lt b a = false) (insert_sorted lt x l).
Proof.
  intros Hasym Htrans. induction 1 as [|y l Hl IH Hy]; simpl.
  - repeat constructor.
  - destruct (lt y x) eqn:E.
    + constructor; [done|].
      rewrite Forall_forall. intros z Hz.
      rewrite insert_sorted_Permutation in Hz.
      apply elem_of_cons in Hz as [->|Hz]; [by apply Hasym|].
      rewrite Forall_forall in Hy. by apply Hy.
    + constructor; [by constructor|].
      constructor; [done|].
      eapply Forall_impl; [exact Hy|]. intros z Hz. simpl in Hz.
      by apply (Htrans x y z).
Qed.

Lemma sorted_StronglySorted {A} (lt : A → A → bool) l :
  (∀ a b, lt a b = true → lt b a = false) →
  (∀ a b c, lt b a = false → lt c b = false → lt c a = false) →
  StronglySorted (λ a b, lt b a = false) (sorted lt l).
Proof.
  intros Hasym Htrans. induction l as [|x l IH]; [constructor|].
  by apply insert_sorted_StronglySorted.
Qed.

(** A sorted list of pairwise distinct elements is strictly sorted. *)
Lemma StronglySorted_strict {A} (lt : A → A → bool) (D : A → A → Prop) l :
  (∀ a b, D a b → lt b a = false → lt a b = true) →
  StronglySorted D l →
  StronglySorted (λ a b, lt b a = false) l →
  StronglySorted (λ a b, lt a b = true) l.
Proof.
  intros Htotal HD. induction HD as [|x l HD IH Hx]; intros Hs; [constructor|].
  apply StronglySorted_inv in Hs as [Hs Hxs].
  constructor; [by apply IH|].
  rewrite Forall_forall in *. intros y Hy. apply Htotal; [by apply Hx | by apply Hxs].
Qed.

Lemma NoDup_StronglySorted {A} (l : list A) :
  NoDup l → StronglySorted (λ a b, a ≠ b) l.
Proof.
  induction 1 as [|x l Hx Hl IH]; constructor; [done|].
  rewrite Forall_forall. intros y Hy ->. done.
Qed.

(** ** The order of strings *)

Lemma str_lt_asym a : ∀ b, str_lt a b = true → str_lt b a = false.
Proof.
  induction a as [|x a IH]; intros [|y b]; simpl; try done.
  intros H. apply orb_true_iff in H as [H|H].
  - apply N.ltb_lt in H.
    apply orb_false_iff. split; [apply N.ltb_ge; lia|].
    apply andb_false_iff. left. apply N.eqb_neq. lia.
  - apply andb_true_iff in H as [He H]. apply N.eqb_eq in He.
    apply orb_false_iff. split; [apply N.ltb_ge; lia|].
    apply andb_false_iff. right. by apply IH.
Qed.

Lemma str_lt_false_inv x a y b :
  str_lt (x :: a) (y :: b) = false ↔
  (y ≤ x)%N ∧ (x = y → str_lt a b = false).
Proof.
  simpl. rewrite orb_false_iff, andb_false_iff, N.ltb_ge, N.eqb_neq.
  split; intros [H1 H2]; (split; [done|]).
  - intros He. by destruct H2.
  - destruct (decide (x = y)); [right; auto | by left].
Qed.

Lemma str_le_trans a : ∀ b c,
  str_lt b a = false → str_lt c b = false → str_lt c a = false.
Proof.
  induction a as [|x a IH]; intros b c Hba Hcb.
  - by destruct c.
  - destruct b as [|y b]; [by destruct c|].
    destruct c as [|z c]; [done|].
    apply str_lt_false_inv in Hba as [H1 H2].
    apply str_lt_false_inv in Hcb as [H3 H4].
    apply str_lt_false_inv. split; [lia|].
    intros He. apply (IH b c); [apply H2 | apply H4]; lia.
Qed.

Lemma str_lt_total a : ∀ b,
  str_lt a b = false → str_lt b a = false → a = b.
Proof.
  induction a as [|x a IH]; intros [|y b]; try done.
  intros H1 H2.
  apply str_lt_false_inv in H1 as [H1 H1'].
  apply str_lt_false_inv in H2 as [H2 H2'].
  assert (Hc : x = y) by lia.
  f_equal; [done | apply IH; auto].
Qed.

Lemma frequency_lt_asym x y :
  frequency_lt x y = true → frequency_lt y x = false.
Proof.
  unfold frequency_lt. intros H. apply orb_true_iff in H as [H|H].
  - apply Z.ltb_lt in H. apply orb_false_iff. split; [apply Z.ltb_ge; lia|].
    apply andb_false_iff. left. apply Z.eqb_neq. lia.
  - apply andb_true_iff in H as [He H]. apply Z.eqb_eq in He.
    apply orb_false_iff. split; [apply Z.ltb_ge; lia|].
    apply andb_false_iff. right. by apply str_lt_asym.
Qed.

Lemma frequency_lt_false_inv x y :
  frequency_lt x y = false ↔
  (x.2 ≤ y.2)%Z ∧ (x.2 = y.2 → str_lt x.1 y.1 = false).
Proof.
  unfold frequency_lt.
  rewrite orb_false_iff, andb_false_iff, Z.ltb_ge, Z.eqb_neq.
  split; intros [H1 H2]; (split; [done|]).
  - intros He. by destruct H2.
  - destruct (decide (x.2 = y.2)); [right; auto | by left].
Qed.

Lemma frequency_le_trans x y z :
  frequency_lt y x = false → frequency_lt z y = false → frequency_lt z x = false.
Proof.
  rewrite !frequency_lt_false_inv. intros [H1 H2] [H3 H4]. split; [lia|].
  intros He. apply (str_le_trans _ y.1); [apply H2 | apply H4]; lia.
Qed.

Lemma frequency_lt_total x y :
  x.1 ≠ y.1 → frequency_lt y x = false → frequency_lt x y = true.
Proof.
  intros Hne H. apply not_false_iff_true. intros H'.
  apply frequency_lt_false_inv in H as [H1 H2].
  apply frequency_lt_false_inv in H' as [H3 H4].
  apply Hne. apply str_lt_total; [apply H4 | apply H2]; lia.
Qed.

(** ** Counting words *)

Lemma get_count_counter_add w w' d :
  get_count w' (counter_add w d)
    = (get_count w' d + (if bool_decide (w = w') then 1 else 0))%Z.
Proof.
  induction d as [|[u n] d IH]; simpl.
  - by destruct (bool_decide (w = w')).
  - destruct (decide (u = w)) as [->|Huw].
    + rewrite bool_decide_eq_true_2 by done. simpl.
      destruct (decide (w = w')) as [->|Hne].
      * rewrite !bool_decide_eq_true_2 by done. lia.
      * rewrite !bool_decide_eq_false_2 by done. lia.
    + rewrite bool_decide_eq_false_2 by done. simpl. rewrite IH.
      destruct (decide (u = w')) as [->|Hne].
      * rewrite bool_decide_eq_true_2 by done.
        rewrite (bool_decide_eq_false_2 (w = w')) by done. lia.
      * by rewrite (bool_decide_eq_false_2 (u = w')) by done.
Qed.

Lemma counter_add_keys w d w' :
  w' ∈ (counter_add w d).*1 ↔ w' = w ∨ w' ∈ d.*1.
Proof.
  induction d as [|[u n] d IH]; simpl.
  - rewrite list_elem_of_singleton, elem_of_nil. tauto.
  - case_bool_decide as Huw; simpl.
    + subst u. rewrite elem_of_cons. tauto.
    + rewrite !elem_of_cons, IH. tauto.
Qed.

Lemma counter_add_NoDup w d : NoDup d.*1 → NoDup (counter_add w d).*1.
Proof.
  induction d as [|[u n] d IH]; simpl; intros Hd.
  - apply NoDup_singleton.
  - apply NoDup_cons in Hd as [Hu Hd]. case_bool_decide as Huw; simpl.
    + by apply NoDup_cons.
    + apply NoDup_cons. split; [|by apply IH].
      rewrite counter_add_keys. intros [->|?]; done.
Qed.

Lemma counter_add_positive w d :
  Forall (λ p, (0 < p.2)%Z) d → Forall (λ p, (0 < p.2)%Z) (counter_add w d).
Proof.
  induction 1 as [|[u n] d Hn Hd IH]; simpl.
  - repeat constructor.
  - case_bool_decide; constructor; simpl in *; try done. lia.
Qed.

Lemma counter_add_sum w d :
  foldr Z.add 0%Z (counter_add w d).*2 = (foldr Z.add 0%Z d.*2 + 1)%Z.
Proof.
  induction d as [|[u n] d IH]; [done|]. cbn [counter_add].
  case_bool_decide; rewrite !fmap_cons; cbn [foldr snd]; rewrite ?IH; lia.
Qed.

Lemma occurrences_cons w x ws :
  occurrences w (x :: ws)
    = ((if bool_decide (x = w) then 1 else 0) + occurrences w ws)%Z.
Proof. unfold occurrences. simpl. case_bool_decide; simpl; lia. Qed.

Lemma occurrences_positive w ws : (0 < occurrences w ws)%Z ↔ w ∈ ws.
Proof.
  induction ws as [|x ws IH].
  - unfold occurrences. simpl. rewrite elem_of_nil. lia.
  - rewrite occurrences_cons, elem_of_cons.
    assert (0 ≤ occurrences w ws)%Z by (unfold occurrences; lia).
    case_bool_decide as Hx.
    + subst x. split; [by left | lia].
    + rewrite Z.add_0_l, IH. split; [by right | by intros [->|?]].
Qed.

Lemma Counter_fold ws : ∀ d,
  NoDup d.*1 →
  Forall (λ p, (0 < p.2)%Z) d →
  NoDup (foldl (λ counts word, counter_add word counts) d ws).*1
  ∧ Forall (λ p, (0 < p.2)%Z) (foldl (λ counts word, counter_add word counts) d ws)
  ∧ (∀ w, get_count w (foldl (λ counts word, counter_add word counts) d ws)
          = (get_count w d + occurrences w ws)%Z)
  ∧ foldr Z.add 0%Z (foldl (λ counts word, counter_add word counts) d ws).*2
    = (foldr Z.add 0%Z d.*2 + Z.of_nat (length ws))%Z.
Proof.
  induction ws as [|x ws IH]; intros d Hd Hp; simpl.
  - split; [done|]. split; [done|]. split; [|lia].
    intros w. unfold occurrences. simpl. lia.
  - destruct (IH (counter_add x d)) as (H1 & H2 & H3 & H4).
    { by apply counter_add_NoDup. }
    { by apply counter_add_positive. }
    split; [done|]. split; [done|]. split.
    + intros w. rewrite H3, get_count_counter_add, occurrences_cons. lia.
    + rewrite H4, counter_add_sum. lia.
Qed.

Lemma elem_of_counts d w n :
  NoDup d.*1 →
  Forall (λ p, (0 < p.2)%Z) d →
  (w, n) ∈ d ↔ get_count w d = n ∧ (0 < n)%Z.
Proof.
  induction d as [|[u m] d IH]; simpl; intros Hd Hp.
  - rewrite elem_of_nil. lia.
  - apply NoDup_cons in Hd as [Hu Hd]. apply Forall_cons in Hp as [Hm Hp].
    simpl in Hm. rewrite elem_of_cons, (IH Hd Hp). case_bool_decide as Huw.
    + subst u. split.
      * intros [[= ->]|[Hg Hn]]; [done|].
        exfalso. apply Hu. apply list_elem_of_fmap. exists (w, n). split; [done|].
        by apply (IH Hd Hp).
      * intros [-> _]. by left.
    + split; [intros [[= -> ->]|?]; done | by right].
Qed.

Lemma sum_Permutation (l1 l2 : list Z) :
  l1 ≡ₚ l2 → foldr Z.add 0%Z l1 = foldr Z.add 0%Z l2.
Proof. induction 1; simpl; lia. Qed.

Lemma analyze_text_inr lower float_avg text r :
  analyze_text lower float_avg text = inr r →
  words lower text ≠ []
  ∧ Analysis.word_count r = Z.of_nat (length (words lower text))
  ∧ Analysis.word_frequency r = sorted frequency_lt (Counter (words lower text))
  ∧ ∃ word rest,
      words lower text = word :: rest
      ∧ Analysis.longest_words r =
          sorted str_lt
            (remove_dups
               (List.filter
                  (λ w, (len w =? foldl Z.max (len word) (map len rest))%Z)
                  (words lower text))).
Proof.
  unfold analyze_text. destruct (str_strip text); [done|].
  destruct (words lower text) as [|word rest] eqn:Ew; [done|].
  intros [= <-]. simpl. split; [done|]. split; [done|]. split; [done|].
  by exists word, rest.
Qed.

(** X11: in the statistics of a text, [word_frequency] has one entry
    per distinct word; the number of a word is the number of its
    occurrences among the words of the text, and is at least 1; the
    numbers add up to [word_count], the number of words, which is at
    least 1. *)
Theorem word_frequency_counts lower float_avg text r :
  analyze_text lower float_avg text = inr r →
  NoDup (Analysis.word_frequency r).*1
  ∧ (∀ w n, (w, n) ∈ Analysis.word_frequency r ↔
            n = occurrences w (words lower text) ∧ w ∈ words lower text)
  ∧ Analysis.word_count r = foldr Z.add 0%Z (Analysis.word_frequency r).*2
  ∧ Analysis.word_count r = Z.of_nat (length (words lower text))
  ∧ (1 ≤ Analysis.word_count r)%Z.
Proof.
  intros Hr. destruct (analyze_text_inr _ _ _ _ Hr) as (Hne & Hc & Hf & _).
  destruct (Counter_fold (words lower text) []) as (H1 & H2 & H3 & H4);
    [constructor | constructor |].
  fold (Counter (words lower text)) in H1, H2, H3, H4.
  pose proof (sorted_Permutation frequency_lt (Counter (words lower text))) as Hperm.
  rewrite Hf, Hc. split; [by rewrite Hperm|]. split; [|split; [|split]].
  - intros w n. rewrite Hperm, (elem_of_counts _ w n H1 H2), H3. simpl.
    rewrite <- occurrences_positive. split; intros [? ?]; split; lia.
  - assert (Hp2 : (sorted frequency_lt (Counter (words lower text))).*2
                  ≡ₚ (Counter (words lower text)).*2) by (by rewrite Hperm).
    rewrite (sum_Permutation _ _ Hp2), H4. simpl. lia.
  - done.
  - destruct (words lower text); [done|]. simpl. lia.
Qed.

Lemma word_frequency_counts_witness :
  analyze_text lower_ascii (λ _ _, 0%Q) text1
    = inr {| Analysis.word_count := 11;
             Analysis.average_word_length := 0;
             Analysis.longest_words :=
               map str_of ["brown"; "jumps"; "quick"];
             Analysis.word_frequency :=
               map (λ p, (str_of p.1, p.2))
                 [("the", 3%Z); ("fox", 2%Z); ("brown", 1%Z); ("dog", 1%Z);
                  ("jumps", 1%Z); ("lazy", 1%Z); ("over", 1%Z); ("quick", 1%Z)] |}
  ∧ occurrences (str_of "the") (words lower_ascii text1) = 3%Z.
Proof.
  assert (H : analyze_text lower_ascii (λ _ _, 0%Q) text1
    = inr {| Analysis.word_count := 11;
             Analysis.average_word_length := 0;
             Analysis.longest_words :=
               map str_of ["brown"; "jumps"; "quick"];
             Analysis.word_frequency :=
               map (λ p, (str_of p.1, p.2))
                 [("the", 3%Z); ("fox", 2%Z); ("brown", 1%Z); ("dog", 1%Z);
                  ("jumps", 1%Z); ("lazy", 1%Z); ("over", 1%Z); ("quick", 1%Z)] |})
    by (vm_compute; reflexivity).
  split; [exact H|].
  destruct (word_frequency_counts _ _ _ _ H) as (_ & Hn & _).
  symmetry. apply (Hn (str_of "the") 3%Z). simpl. by left.
Defined.

(** X12: [word_frequency] lists the most frequent words first, and
    words of equal frequency in the order of their code points: of any
    two entries, the earlier has the larger number, or the same number
    and the smaller word. *)
Theorem word_frequency_order lower float_avg text r :
  analyze_text lower float_avg text = inr r →
  StronglySorted
    (λ x y, (y.2 < x.2)%Z ∨ (x.2 = y.2 ∧ str_lt x.1 y.1 = true))
    (Analysis.word_frequency r).
Proof.
  intros Hr. destruct (analyze_text_inr _ _ _ _ Hr) as (_ & _ & Hf & _).
  destruct (Counter_fold (words lower text) []) as (H1 & _); [constructor | constructor |].
  fold (Counter (words lower text)) in H1.
  pose proof (sorted_Permutation frequency_lt (Counter (words lower text))) as Hperm.
  rewrite Hf.
  assert (Hstrict : StronglySorted (λ x y, frequency_lt x y = true)
                      (sorted frequency_lt (Counter (words lower text)))).
  { apply (StronglySorted_strict frequency_lt (λ x y, x.1 ≠ y.1)).
    - intros a b. apply frequency_lt_total.
    - assert (Hnd : NoDup (sorted frequency_lt (Counter (words lower text))).*1)
        by (by rewrite Hperm).
      revert Hnd. generalize (sorted frequency_lt (Counter (words lower text))).
      induction l as [|x l IH]; intros Hnd; [constructor|].
      rewrite fmap_cons in Hnd. apply NoDup_cons in Hnd as [Hx Hnd].
      constructor; [by apply IH|].
      rewrite Forall_forall. intros y Hy He. apply Hx. rewrite He.
      by apply list_elem_of_fmap_2.
    - apply sorted_StronglySorted;
        [apply frequency_lt_asym | intros a b c; apply frequency_le_trans]. }
  revert Hstrict. generalize (sorted frequency_lt (Counter (words lower text))).
  clear. intros l Hstrict.
  induction Hstrict as [|x l Hl IH Hx]; [constructor|].
  constructor; [done|].
  eapply Forall_impl; [exact Hx|]. intros y Hy. simpl in Hy.
  unfold frequency_lt in Hy. apply orb_true_iff in Hy as [Hy|Hy].
  - left. by apply Z.ltb_lt.
  - right. apply andb_true_iff in Hy as [He Hy]. by apply Z.eqb_eq in He.
Qed.

Lemma word_frequency_order_witness :
  ∃ r, analyze_text lower_ascii (λ _ _, 0%Q) text2 = inr r
       ∧ StronglySorted
           (λ x y, (y.2 < x.2)%Z ∨ (x.2 = y.2 ∧ str_lt x.1 y.1 = true))
           (Analysis.word_frequency r).
Proof.
  destruct (analyze_text lower_ascii (λ _ _, 0%Q) text2) as [e|r] eqn:E;
    [vm_compute in E; discriminate|].
  exists r. split; [done|]. exact (word_frequency_order _ _ _ _ E).
Defined.

(** ** The longest words *)

Lemma foldl_max_spec l : ∀ a,
  (a ≤ foldl Z.max a l)%Z
  ∧ Forall (λ x, (x ≤ foldl Z.max a l)%Z) l
  ∧ (foldl Z.max a l = a ∨ foldl Z.max a l ∈ l).
Proof.
  induction l as [|x l IH]; intros a; simpl.
  - split; [lia|]. split; [constructor | by left].
  - destruct (IH (Z.max a x)) as (H1 & H2 & H3).
    split; [lia|]. split; [constructor; [lia | done]|].
    destruct H3 as [H3|H3]; [|right; by right].
    destruct (Z.max_spec a x) as [[? Hm]|[? Hm]]; rewrite Hm in H3 |- *.
    + right. rewrite H3. by left.
    + by left.
Qed.

(** X13: [longest_words] holds exactly the words of the text that no
    word of the text exceeds in length, each once, in increasing order of
    code points; it is never empty. *)
Theorem longest_words_spec lower float_avg text r :
  analyze_text lower float_avg text = inr r →
  Analysis.longest_words r ≠ []
  ∧ StronglySorted (λ a b, str_lt a b = true) (Analysis.longest_words r)
  ∧ (∀ w, w ∈ Analysis.longest_words r ↔
          w ∈ words lower text ∧ ∀ w', w' ∈ words lower text → length w' ≤ length w).
Proof.
  intros Hr.
  destruct (analyze_text_inr _ _ _ _ Hr) as (_ & _ & _ & word & rest & Hw & Hl).
  set (m := foldl Z.max (len word) (map len rest)) in *.
  set (l := remove_dups (List.filter (λ w, (len w =? m)%Z) (words lower text))) in *.
  pose proof (sorted_Permutation str_lt l) as Hperm.
  destruct (foldl_max_spec (map len rest) (len word)) as (H1 & H2 & H3).
  fold m in H1, H2, H3.
  assert (Hmax : ∀ w', w' ∈ words lower text → (len w' ≤ m)%Z).
  { intros w'. rewrite Hw, elem_of_cons. intros [->|Hin]; [done|].
    rewrite Forall_forall in H2. apply H2. by apply list_elem_of_fmap_2. }
  assert (Hatt : ∃ w0, w0 ∈ words lower text ∧ len w0 = m).
  { destruct H3 as [H3|H3].
    - exists word. rewrite Hw. split; [by left | done].
    - apply list_elem_of_fmap in H3 as (w0 & H0 & Hin).
      exists w0. rewrite Hw. split; [by right | done]. }
  assert (Hmem : ∀ w, w ∈ l ↔ w ∈ words lower text ∧ len w = m).
  { intros w. unfold l. rewrite elem_of_remove_dups, !list_elem_of_In, filter_In.
    rewrite Z.eqb_eq. done. }
  rewrite Hl. split; [|split].
  - destruct Hatt as (w0 & Hin & Hlen).
    assert (H0 : w0 ∈ sorted str_lt l) by (rewrite Hperm; by apply Hmem).
    intros E. rewrite E in H0. by apply elem_of_nil in H0.
  - apply (StronglySorted_strict str_lt (λ a b, a ≠ b)).
    + intros a b Hne H. apply not_false_iff_true. intros H'.
      apply Hne. by apply str_lt_total.
    + apply NoDup_StronglySorted. rewrite Hperm. apply NoDup_remove_dups.
    + apply sorted_StronglySorted; [apply str_lt_asym|].
      intros a b c. apply str_le_trans.
  - intros w. rewrite Hperm, Hmem. unfold len in *. split.
    + intros [Hin Hlen]. split; [done|]. intros w' Hin'.
      specialize (Hmax w' Hin'). lia.
    + intros [Hin Hall]. split; [done|].
      destruct Hatt as (w0 & Hin0 & Hlen0).
      specialize (Hall w0 Hin0). specialize (Hmax w Hin). lia.
Qed.

Lemma longest_words_spec_witness :
  (∃ r, analyze_text lower_ascii (λ _ _, 0%Q) text2 = inr r
        ∧ Analysis.longest_words r
          = map str_of ["hello"; "world"]
        ∧ StronglySorted (λ a b, str_lt a b = true) (Analysis.longest_words r)).
Proof.
  destruct (analyze_text lower_ascii (λ _ _, 0%Q) text2) as [e|r] eqn:E;
    [vm_compute in E; discriminate|].
  exists r. split; [done|]. split.
  - vm_compute in E. by inversion E.
  - exact (proj1 (proj2 (longest_words_spec _ _ _ _ E))).
Defined.


(** ** The words of a text *)

Lemma words_clean lower text :
  Forall (λ w, w ≠ []
               ∧ Forall (λ c, c ∈ lower text
                              ∧ isspace c = false
                              ∧ is_punctuation c = false) w)
    (words lower text).
Proof.
  rewrite words_split. apply split_words_Forall; [constructor|].
  rewrite Forall_forall. intros c Hc Hsp.
  apply list_elem_of_In, filter_In in Hc as [Hc Hp].
  apply negb_true_iff in Hp. by apply list_elem_of_In in Hc.
Qed.

(** X14: [split()] never yields an empty word, so the filter of empty
    words removes nothing; every word counted in [word_frequency] and
    every word of [longest_words] is non-empty and consists of characters
    of the lower-case form of the text that are neither whitespace nor
    punctuation (punctuation between letters is deleted, it does not
    separate words). *)
Theorem counted_words_are_clean lower float_avg text r :
  analyze_text lower float_avg text = inr r →
  words lower text = str_split (remove_punctuation (lower text))
  ∧ (∀ w, w ∈ (Analysis.word_frequency r).*1 ∨ w ∈ Analysis.longest_words r →
          w ≠ []
          ∧ Forall (λ c, c ∈ lower text
                         ∧ isspace c = false
                         ∧ is_punctuation c = false) w).
Proof.
  intros Hr. split; [apply words_split|].
  destruct (analyze_text_inr _ _ _ _ Hr) as (_ & _ & Hf & word & rest & _ & Hl).
  pose proof (words_clean lower text) as Hclean. rewrite Forall_forall in Hclean.
  intros w Hw. apply Hclean. destruct Hw as [Hw|Hw].
  - rewrite Hf, sorted_Permutation in Hw.
    apply list_elem_of_fmap in Hw as ([w' n] & -> & Hin). simpl.
    destruct (Counter_fold (words lower text) []) as (H1 & H2 & H3 & _);
      [constructor | constructor |].
    fold (Counter (words lower text)) in H1, H2, H3.
    apply (elem_of_counts _ w' n H1 H2) in Hin as [Hg Hn].
    rewrite H3 in Hg. simpl in Hg. apply occurrences_positive. lia.
  - rewrite Hl, sorted_Permutation, elem_of_remove_dups in Hw.
    by apply list_elem_of_In, filter_In in Hw as [Hw _]; apply list_elem_of_In.
Qed.

Lemma counted_words_are_clean_witness :
  ∃ r, analyze_text lower_ascii (λ _ _, 0%Q) (str_of "Word,word  A-b!") = inr r
       ∧ Analysis.word_frequency r
         = [(str_of "ab", 1%Z); (str_of "wordword", 1%Z)]
       ∧ str_of "wordword" ≠ [].
Proof.
  destruct (analyze_text lower_ascii (λ _ _, 0%Q) (str_of "Word,word  A-b!"))
    as [e|r] eqn:E; [vm_compute in E; discriminate|].
  exists r. split; [done|].
  assert (Hf : Analysis.word_frequency r
         = [(str_of "ab", 1%Z); (str_of "wordword", 1%Z)])
    by (vm_compute in E; by inversion E).
  split; [exact Hf|].
  destruct (counted_words_are_clean _ _ _ _ E) as [_ H].
  apply (H (str_of "wordword")). left. rewrite Hf.
  rewrite !fmap_cons. simpl. right. by left.
Defined.
